(** * Fireworks particle simulator (birthdayCard): model and properties

    A shallow embedding of the [Fireworks] component: the particle pool
    ([FireworkData], seven parallel typed arrays), [resetParticle], the
    initialization effect and the per-frame callback handed to [useFrame].

    Numbers.  JavaScript numbers and [Float32Array] cells are modelled as
    mathematical reals: arithmetic is exact, and rounding, NaN and the
    infinities are outside the model.  A typed array is a [list R]; a store
    is stdpp's list insert, which like a typed array ignores an index that
    is out of range; a load is the total lookup.  So an equation proved
    here is the code's formula, which the engine evaluates with a rounding
    at each operation and at each store; a quotient is Rocq's total
    division, the code's only where the divisor is not zero; and bounds
    are stated with the room that rounding needs.  Where the last bit
    decides, the module [IEEE] evaluates the code's expressions in binary64
    and binary32 with the Standard Library's [SpecFloat].

    Randomness.  [Math.random] is the only source of randomness and
    [resetParticle] its only consumer.  The generator is an arbitrary
    sequence [random : nat -> R]; the state counts the draws made so far.

    The frame callbacks of [BirthdayCard] (the card's position) and of
    [Candle] (flame strength and point light) are modelled beside it, in
    the modules [Fireworks.BirthdayCard] and [Fireworks.Candle]. *)

From Stdlib Require Import Reals Lra Lia List ZArith SpecFloat.
From stdpp Require Import base list.

Open Scope R_scope.

Module Fireworks.

(** ** Constants (lines 17-20) *)

Definition FIREWORK_COUNT : nat := 100.
Definition PARTICLES_PER_FIREWORK : nat := 10.
Definition TOTAL_PARTICLES : nat := (FIREWORK_COUNT * PARTICLES_PER_FIREWORK)%nat.
Definition GRAVITY : R := -4.

(** ** Data *)

Record Vector3 : Type := mkVector3 { x : R; y : R; z : R }.

Record Color : Type := mkColor { r : R; g : R; b : R }.

Definition add (v w : Vector3) : Vector3 :=
  mkVector3 (x v + x w) (y v + y w) (z v + z w).

(** [type FireworkData] (lines 22-30). *)
Record FireworkData : Type := mkFireworkData {
  positions : list R;
  velocities : list R;
  origins : list R;
  baseColors : list R;
  colors : list R;
  ages : list R;
  lifetimes : list R
}.

(** [new Float32Array(n)]: [n] cells, all zero. *)
Definition Float32Array (n : nat) : list R := replicate n 0.

(** The pool allocated on first render (lines 44-54). *)
Definition emptyData : FireworkData :=
  {| positions := Float32Array (TOTAL_PARTICLES * 3);
     velocities := Float32Array (TOTAL_PARTICLES * 3);
     origins := Float32Array (TOTAL_PARTICLES * 3);
     baseColors := Float32Array (TOTAL_PARTICLES * 3);
     colors := Float32Array (TOTAL_PARTICLES * 3);
     ages := Float32Array TOTAL_PARTICLES;
     lifetimes := Float32Array TOTAL_PARTICLES |}.

(** The component's mutable state: whether [geometryRef] and [materialRef]
    are attached, the material's opacity, the pool, and the number of
    [Math.random] calls made so far. *)
Record Sim : Type := mkSim {
  attached : bool;
  opacity : R;
  data : FireworkData;
  drawn : nat
}.

(** The component just mounted: [opacity={0}] (line 185), a zeroed pool,
    no draw made. *)
Definition mounted : Sim :=
  {| attached := true; opacity := 0; data := emptyData; drawn := 0%nat |}.

#[global] Instance R_inhabited : Inhabited R := populate 0.
#[global] Instance Rlt_decision (u v : R) : Decision (u < v) := Rlt_dec u v.
#[global] Instance Rgt_decision (u v : R) : Decision (u > v) := Rgt_dec u v.

(** ** A state monad over [Sim] *)

Definition M (A : Type) : Type := Sim -> A * Sim.

Definition ret {A : Type} (a : A) : M A := fun s => (a, s).

Definition bind {A B : Type} (m : M A) (k : A -> M B) : M B :=
  fun s => let (a, s') := m s in k a s'.

Definition exec {A : Type} (m : M A) (s : Sim) : Sim := snd (m s).

Declare Scope sim_scope.
Delimit Scope sim_scope with sim.
Notation "v <- m ;; k" := (bind m (fun v => k))
  (at level 100, m at next level, right associativity) : sim_scope.
Notation "m ;; k" := (bind m (fun _ => k))
  (at level 100, right associativity) : sim_scope.
Open Scope sim_scope.

Definition modifyData (f : FireworkData -> FireworkData) : M unit :=
  fun s => (tt, {| attached := attached s; opacity := opacity s;
                   data := f (data s); drawn := drawn s |}).

Definition setOpacity (v : R) : M unit :=
  fun s => (tt, {| attached := attached s; opacity := v;
                   data := data s; drawn := drawn s |}).

(** Loads [arr[i]]. *)
Definition load (arr : FireworkData -> list R) (i : nat) : M R :=
  fun s => (arr (data s) !!! i, s).

(** Stores [arr[i] = v], one definition per array of the pool. *)
Definition storePositions (i : nat) (v : R) : M unit :=
  modifyData (fun d => mkFireworkData (<[i:=v]> (positions d)) (velocities d)
    (origins d) (baseColors d) (colors d) (ages d) (lifetimes d)).
Definition storeVelocities (i : nat) (v : R) : M unit :=
  modifyData (fun d => mkFireworkData (positions d) (<[i:=v]> (velocities d))
    (origins d) (baseColors d) (colors d) (ages d) (lifetimes d)).
Definition storeOrigins (i : nat) (v : R) : M unit :=
  modifyData (fun d => mkFireworkData (positions d) (velocities d)
    (<[i:=v]> (origins d)) (baseColors d) (colors d) (ages d) (lifetimes d)).
Definition storeBaseColors (i : nat) (v : R) : M unit :=
  modifyData (fun d => mkFireworkData (positions d) (velocities d)
    (origins d) (<[i:=v]> (baseColors d)) (colors d) (ages d) (lifetimes d)).
Definition storeColors (i : nat) (v : R) : M unit :=
  modifyData (fun d => mkFireworkData (positions d) (velocities d)
    (origins d) (baseColors d) (<[i:=v]> (colors d)) (ages d) (lifetimes d)).
Definition storeAges (i : nat) (v : R) : M unit :=
  modifyData (fun d => mkFireworkData (positions d) (velocities d)
    (origins d) (baseColors d) (colors d) (<[i:=v]> (ages d)) (lifetimes d)).
Definition storeLifetimes (i : nat) (v : R) : M unit :=
  modifyData (fun d => mkFireworkData (positions d) (velocities d)
    (origins d) (baseColors d) (colors d) (ages d) (<[i:=v]> (lifetimes d))).

(** [for (let i = from; i < from + count; i += 1) body(i)]. *)
Fixpoint forRange (from count : nat) (body : nat -> M unit) : M unit :=
  match count with
  | O => ret tt
  | S c => body from ;; forRange (S from) c body
  end.

(** ** Reading one particle out of the parallel arrays *)

Definition vec3At (arr : list R) (i : nat) : Vector3 :=
  mkVector3 (arr !!! (i * 3)%nat) (arr !!! (i * 3 + 1)%nat) (arr !!! (i * 3 + 2)%nat).

Definition colorAt (arr : list R) (i : nat) : Color :=
  mkColor (arr !!! (i * 3)%nat) (arr !!! (i * 3 + 1)%nat) (arr !!! (i * 3 + 2)%nat).

Definition black : Color := mkColor 0 0 0.

Definition scale (c : Color) (k : R) : Color := mkColor (r c * k) (g c * k) (b c * k).

(** The seven attributes of particle [i]. *)
Record Particle : Type := mkParticle {
  currentPosition : Vector3;
  velocity : Vector3;
  origin : Vector3;
  baseColor : Color;
  currentColor : Color;
  age : R;
  lifetime : R
}.

Definition particle (d : FireworkData) (i : nat) : Particle :=
  {| currentPosition := vec3At (positions d) i;
     velocity := vec3At (velocities d) i;
     origin := vec3At (origins d) i;
     baseColor := colorAt (baseColors d) i;
     currentColor := colorAt (colors d) i;
     age := ages d !!! i;
     lifetime := lifetimes d !!! i |}.

(** Every array has the size it was allocated with (lines 46-52). *)
Definition wellSized (d : FireworkData) : Prop :=
  length (positions d) = (TOTAL_PARTICLES * 3)%nat /\
  length (velocities d) = (TOTAL_PARTICLES * 3)%nat /\
  length (origins d) = (TOTAL_PARTICLES * 3)%nat /\
  length (baseColors d) = (TOTAL_PARTICLES * 3)%nat /\
  length (colors d) = (TOTAL_PARTICLES * 3)%nat /\
  length (ages d) = TOTAL_PARTICLES /\
  length (lifetimes d) = TOTAL_PARTICLES.

(** The arrays have their sizes and every lifetime is in [[1.6, 2.9)]. *)
Definition livePool (d : FireworkData) : Prop :=
  wellSized d /\
  forall i : nat, (i < TOTAL_PARTICLES)%nat -> 1.6 <= lifetime (particle d i) < 2.9.

(** ** three.js [MathUtils] (library code, as in three's MathUtils.js) *)

Definition lerp (u v t : R) : R := (1 - t) * u + t * v.

Definition damp (u v lambda dt : R) : R := lerp u v (1 - exp (- lambda * dt)).

(** What the component takes from outside: [random k] is the [k]-th value
    returned by [Math.random]; [setHSL] is three.js [Color.setHSL] (library
    code, left abstract); [baseOrigin] is the [origin] prop as a [Vector3]
    (line 42). *)
Record Env : Type := mkEnv {
  random : nat -> R;
  setHSL : R -> R -> R -> Color;
  baseOrigin : Vector3
}.

(** [Math.random] returns a number in [[0, 1)]. *)
Definition unitDraws (env : Env) : Prop := forall k : nat, 0 <= random env k < 1.

Section Component.

Variable env : Env.

#[local] Abbreviation random := (random env).
#[local] Abbreviation setHSL := (setHSL env).
#[local] Abbreviation baseOrigin := (baseOrigin env).

Definition Math_random : M R :=
  fun s => (random (drawn s),
            {| attached := attached s; opacity := opacity s;
               data := data s; drawn := S (drawn s) |}).

(** [randomColor] (lines 32-36). *)
Definition randomColor : M Color :=
  hue <- Math_random ;;
  sat <- Math_random ;;
  ret (setHSL hue (0.65 + sat * 0.2) 0.6).

(** [resetParticle] (lines 56-99). *)
Definition resetParticle (index : nat) : M unit :=
  let baseIndex := (index * 3)%nat in
  rx <- Math_random ;;
  ry <- Math_random ;;
  rz <- Math_random ;;
  let burstOrigin :=
    add baseOrigin (mkVector3 ((rx - 0.5) * 1000) (ry * 200) ((rz - 0.5) * 1000)) in
  storeOrigins baseIndex (x burstOrigin) ;;
  storeOrigins (baseIndex + 1) (y burstOrigin) ;;
  storeOrigins (baseIndex + 2) (z burstOrigin) ;;
  rt <- Math_random ;;
  let theta := rt * PI * 2 in
  rp <- Math_random ;;
  let phi := acos (rp * 2 - 1) * 0.9 in
  rs <- Math_random ;;
  let speed := 1 + rs * 1.4 in
  storeVelocities baseIndex (sin phi * cos theta * speed) ;;
  storeVelocities (baseIndex + 1) (cos phi * (speed * 1.2)) ;;
  storeVelocities (baseIndex + 2) (sin phi * sin theta * speed) ;;
  color <- randomColor ;;
  storeBaseColors baseIndex (r color) ;;
  storeBaseColors (baseIndex + 1) (g color) ;;
  storeBaseColors (baseIndex + 2) (b color) ;;
  storeColors baseIndex 0 ;;
  storeColors (baseIndex + 1) 0 ;;
  storeColors (baseIndex + 2) 0 ;;
  storePositions baseIndex (x burstOrigin) ;;
  storePositions (baseIndex + 1) (y burstOrigin) ;;
  storePositions (baseIndex + 2) (z burstOrigin) ;;
  rl <- Math_random ;;
  storeLifetimes index (1.6 + rl * 1.3) ;;
  ra <- Math_random ;;
  storeAges index (- ra * 1.2).

(** The initialization effect (lines 101-105). *)
Definition initialize : M unit := forRange 0 TOTAL_PARTICLES resetParticle.

(** The body of the particle loop (lines 129-159). *)
Definition particleStep (delta : R) (i : nat) : M unit :=
  let idx3 := (i * 3)%nat in
  a0 <- load ages i ;;
  storeAges i (a0 + delta) ;;
  a1 <- load ages i ;;
  if decide (a1 < 0) then
    ox <- load origins idx3 ;;
    storePositions idx3 ox ;;
    oy <- load origins (idx3 + 1) ;;
    storePositions (idx3 + 1) oy ;;
    oz <- load origins (idx3 + 2) ;;
    storePositions (idx3 + 2) oz ;;
    storeColors idx3 0 ;;
    storeColors (idx3 + 1) 0 ;;
    storeColors (idx3 + 2) 0
  else
    lt <- load lifetimes i ;;
    py <- load positions (idx3 + 1) ;;
    if decide (a1 > lt \/ py < y baseOrigin - 1.5) then
      resetParticle i
    else
      age <- load ages i ;;
      ox <- load origins idx3 ;;
      vx <- load velocities idx3 ;;
      storePositions idx3 (ox + vx * age) ;;
      oy <- load origins (idx3 + 1) ;;
      vy <- load velocities (idx3 + 1) ;;
      storePositions (idx3 + 1) (oy + vy * age + 0.5 * GRAVITY * age * age) ;;
      oz <- load origins (idx3 + 2) ;;
      vz <- load velocities (idx3 + 2) ;;
      storePositions (idx3 + 2) (oz + vz * age) ;;
      lt' <- load lifetimes i ;;
      let fade := Rmax 0 (1 - age / lt') in
      br <- load baseColors idx3 ;;
      storeColors idx3 (br * fade) ;;
      bg <- load baseColors (idx3 + 1) ;;
      storeColors (idx3 + 1) (bg * fade) ;;
      bb <- load baseColors (idx3 + 2) ;;
      storeColors (idx3 + 2) (bb * fade).

(** The callback given to [useFrame] (lines 107-164); the spec's
    [advance(deltaSeconds, isActive)].  It returns at once while a ref is
    unattached (line 112).  The [needsUpdate] flags of lines 162-163 only
    tell the renderer to re-read the arrays and are not part of the state. *)
Definition advance (delta : R) (isActive : bool) : M unit :=
  fun s =>
    if negb (attached s) then (tt, s)
    else
      (if negb isActive then
         setOpacity (damp (opacity s) 0 5 delta)
       else
         setOpacity (damp (opacity s) 0.85 2.5 delta) ;;
         forRange 0 TOTAL_PARTICLES (particleStep delta)) s.

(** The state in which the particle loop of [advance delta true] arrives
    at index [i]. *)
Definition reach (delta : R) (i : nat) : M unit :=
  fun s =>
    (setOpacity (damp (opacity s) 0.85 2.5 delta) ;;
     forRange 0 i (particleStep delta)) s.

(** Iteration [i] of [advance delta true] calls [resetParticle]: nothing
    else calls [Math.random], so the draw count moves exactly then. *)
Definition recycles (delta : R) (s : Sim) (i : nat) : Prop :=
  drawn (exec (particleStep delta i) (exec (reach delta i) s))
  <> drawn (exec (reach delta i) s).

(** A run of frames, each with its [delta] and the [isActive] prop then. *)
Fixpoint advanceAll (frames : list (R * bool)) : M unit :=
  match frames with
  | [] => ret tt
  | (delta, isActive) :: rest => advance delta isActive ;; advanceAll rest
  end.

(** ** What one loop iteration does to its own particle *)

(** The particle written by [resetParticle] when [k] draws were made before. *)
Definition freshParticle (k : nat) : Particle :=
  let burstOrigin :=
    add baseOrigin (mkVector3 ((random k - 0.5) * 1000) (random (k + 1) * 200)
                              ((random (k + 2) - 0.5) * 1000)) in
  let theta := random (k + 3) * PI * 2 in
  let phi := acos (random (k + 4) * 2 - 1) * 0.9 in
  let speed := 1 + random (k + 5) * 1.4 in
  {| currentPosition := burstOrigin;
     velocity := mkVector3 (sin phi * cos theta * speed) (cos phi * (speed * 1.2))
                           (sin phi * sin theta * speed);
     origin := burstOrigin;
     baseColor := setHSL (random (k + 6)) (0.65 + random (k + 7) * 0.2) 0.6;
     currentColor := black;
     age := - random (k + 9) * 1.2;
     lifetime := 1.6 + random (k + 8) * 1.3 |}.

(** Lines 132-140: the particle waits at its origin, black. *)
Definition held (p : Particle) (a : R) : Particle :=
  {| currentPosition := origin p; velocity := velocity p; origin := origin p;
     baseColor := baseColor p; currentColor := black; age := a;
     lifetime := lifetime p |}.

(** Lines 147-159: the particle at age [a] on its parabola, faded. *)
Definition integrated (p : Particle) (a : R) : Particle :=
  {| currentPosition :=
       mkVector3 (x (origin p) + x (velocity p) * a)
                 (y (origin p) + y (velocity p) * a + 0.5 * GRAVITY * a * a)
                 (z (origin p) + z (velocity p) * a);
     velocity := velocity p; origin := origin p; baseColor := baseColor p;
     currentColor := scale (baseColor p) (Rmax 0 (1 - a / lifetime p));
     age := a; lifetime := lifetime p |}.

(** The guard of line 142, on the particle as the iteration finds it and
    its age [a] after the increment. *)
Definition recycleGuard (p : Particle) (a : R) : Prop :=
  a > lifetime p \/ y (currentPosition p) < y baseOrigin - 1.5.

(** One loop iteration seen from its own particle [p], when [k] draws were
    made before: the three branches of lines 132-159. *)
Definition stepParticle (delta : R) (p : Particle) (k : nat) : Particle :=
  let a := age p + delta in
  if decide (a < 0) then held p a
  else if decide (a > lifetime p \/ y (currentPosition p) < y baseOrigin - 1.5)
       then freshParticle k
       else integrated p a.

(** The number of [Math.random] calls of that iteration. *)
Definition stepDraws (delta : R) (p : Particle) : nat :=
  let a := age p + delta in
  if decide (a < 0) then 0%nat
  else if decide (a > lifetime p \/ y (currentPosition p) < y baseOrigin - 1.5)
       then 10%nat
       else 0%nat.

End Component.

(** ** The damping formula as the specification words it *)

(** [value += (target - value) * (1 - exp(-rate * deltaSeconds))]. *)
Definition dampReference (value target rate deltaSeconds : R) : R :=
  value + (target - value) * (1 - exp (- rate * deltaSeconds)).

Definition targetOf (isActive : bool) : R := if isActive then 0.85 else 0.

Definition rateOf (isActive : bool) : R := if isActive then 2.5 else 5.

(** ** Concrete environments and pools *)

(** A stand-in for [Color.setHSL]: the grey of lightness [l]. *)
Definition grey (h s l : R) : Color := mkColor l l l.

(** [Math.random] returns 0 at every call; the default [origin] prop. *)
Definition zeroDraws : Env :=
  {| random := fun _ => 0; setHSL := grey; baseOrigin := mkVector3 0 5 (-14) |}.

(** [Math.random] returns 0.5 at every call; the default [origin] prop. *)
Definition halfDraws : Env :=
  {| random := fun _ => 0.5; setHSL := grey; baseOrigin := mkVector3 0 5 (-14) |}.

(** A pool whose particle 0 rests at height [h] with age 0, vertical
    velocity [v] and lifetime 2; the other cells are zero. *)
Definition poolAt (h v : R) : Sim :=
  {| attached := true;
     opacity := 0;
     data :=
       {| positions := <[1%nat:=h]> (Float32Array (TOTAL_PARTICLES * 3));
          velocities := <[1%nat:=v]> (Float32Array (TOTAL_PARTICLES * 3));
          origins := <[1%nat:=h]> (Float32Array (TOTAL_PARTICLES * 3));
          baseColors := Float32Array (TOTAL_PARTICLES * 3);
          colors := Float32Array (TOTAL_PARTICLES * 3);
          ages := Float32Array TOTAL_PARTICLES;
          lifetimes := <[0%nat:=2]> (Float32Array TOTAL_PARTICLES) |};
     drawn := 0%nat |}.

(** ** Counting recycles and following a run of frames *)

#[global] Instance Rle_decision (u v : R) : Decision (u <= v) := Rle_dec u v.

(** The test that sends particle [p] to [resetParticle] in a frame: not the
    delay branch of line 132, and the guard of line 142. *)
Definition mustRecycle (env : Env) (delta : R) (p : Particle) : Prop :=
  0 <= age p + delta /\
  (age p + delta > lifetime p \/ y (currentPosition p) < y (baseOrigin env) - 1.5).

#[global] Instance mustRecycle_decision env delta p :
  Decision (mustRecycle env delta p).
Proof. unfold mustRecycle. apply _. Defined.

(** How many of the particles [0 .. n-1] of pool [d] pass that test. *)
Definition recycledAmong (env : Env) (delta : R) (d : FireworkData) (n : nat) : nat :=
  length (filter (fun i => mustRecycle env delta (particle d i)) (seq 0 n)).

(** The point of the parabola of [p] at time [t] (lines 149-154). *)
Definition trajectory (p : Particle) (t : R) : Vector3 :=
  mkVector3 (x (origin p) + x (velocity p) * t)
            (y (origin p) + y (velocity p) * t + 0.5 * GRAVITY * t * t)
            (z (origin p) + z (velocity p) * t).

(** The seconds of a run spent in active frames. *)
Fixpoint activeTime (frames : list (R * bool)) : R :=
  match frames with
  | [] => 0
  | (delta, isActive) :: rest => (if isActive then delta else 0) + activeTime rest
  end.

(** Particle [i] is recycled by one of the frames of the run from [s]. *)
Fixpoint recycledDuring (env : Env) (frames : list (R * bool)) (s : Sim) (i : nat)
  : Prop :=
  match frames with
  | [] => False
  | (delta, isActive) :: rest =>
      (isActive = true /\ recycles env delta s i)
      \/ recycledDuring env rest (exec (advance env delta isActive) s) i
  end.

(** What holds of a particle once it has been reset and then only advanced
    by frames: its lifetime and age are in range, it sits on its parabola,
    its color is its base color dimmed, and its origin and velocity are in
    the box and the shell [resetParticle] draws them from. *)
Definition inFlight (env : Env) (p : Particle) : Prop :=
  1.6 <= lifetime p < 2.9
  /\ -1.2 < age p <= lifetime p
  /\ currentPosition p = trajectory p (Rmax 0 (age p))
  /\ (exists f, 0 <= f <= 1 /\ currentColor p = scale (baseColor p) f)
  /\ (age p < 0 -> currentColor p = black)
  /\ (-500 <= x (origin p) - x (baseOrigin env) < 500
      /\ 0 <= y (origin p) - y (baseOrigin env) < 200
      /\ -500 <= z (origin p) - z (baseOrigin env) < 500)
  /\ 1 <= x (velocity p) ^ 2 + y (velocity p) ^ 2 + z (velocity p) ^ 2 < 2.88 ^ 2.

Definition settled (env : Env) (d : FireworkData) : Prop :=
  wellSized d /\
  forall i : nat, (i < TOTAL_PARTICLES)%nat -> inFlight env (particle d i).

(** ** The same arithmetic in IEEE 754

    Where the last bit decides, the code is evaluated as the engine does:
    JavaScript numbers are binary64, a [Float32Array] store rounds to
    binary32 (to nearest, ties to even, overflow to an infinity).  The
    values are the Standard Library's [spec_float]; [Math.exp] is taken
    from outside. *)

Module IEEE.

(** The binary64 number nearest to [m * 2^e]. *)
Definition b64 (m e : Z) : spec_float := binary_normalize 53 1024 m e false.

Definition add64 : spec_float -> spec_float -> spec_float := SFadd 53 1024.
Definition sub64 : spec_float -> spec_float -> spec_float := SFsub 53 1024.
Definition mul64 : spec_float -> spec_float -> spec_float := SFmul 53 1024.

(** The value a [Float32Array] cell holds after a store of [v]. *)
Definition fround (v : spec_float) : spec_float :=
  match v with
  | S754_finite sign m e => binary_round 24 128 sign m e
  | _ => v
  end.


(** three.js [MathUtils.lerp] and [MathUtils.damp] in binary64. *)
Definition lerp (u v t : spec_float) : spec_float :=
  add64 (mul64 (sub64 (b64 1 0) t) u) (mul64 t v).

Definition damp (Math_exp : spec_float -> spec_float)
    (u v lambda dt : spec_float) : spec_float :=
  lerp u v (sub64 (b64 1 0) (Math_exp (mul64 (SFopp lambda) dt))).


(** The cell written by [lifetimes[index] = 1.6 + Math.random() * 1.3]
    (line 97) and by [ages[index] = -Math.random() * 1.2] (line 98) when
    the draw is [r]; the constants are the binary64 numbers nearest to 1.6,
    1.3 and 1.2. *)
Definition lifetimeCell (r : spec_float) : spec_float :=
  fround (add64 (b64 7205759403792794 (-52)) (mul64 r (b64 5854679515581645 (-52)))).

Definition ageCell (r : spec_float) : spec_float :=
  fround (mul64 (SFopp r) (b64 5404319552844595 (-52))).

(** The largest binary64 number below 1: [1 - 2^-53]. *)
Definition largestDraw : spec_float := b64 9007199254740991 (-53).



End IEEE.

(** ** The other animated components of the scene

    [BirthdayCard] and [Candle] animate with the same means as the
    fireworks: a [useFrame] callback, three.js vectors and
    [MathUtils.damp]; their models reuse [Vector3], [add] and [damp]. *)

Module BirthdayCard.

(** Constants (BirthdayCard.tsx, lines 30-35). *)
Definition CARD_SCALE : R := 0.25.
Definition CARD_WIDTH : R := 4 * CARD_SCALE.
Definition CARD_HEIGHT : R := 3 * CARD_SCALE.
Definition CAMERA_DISTANCE : R := 1.2.
Definition CAMERA_Y_FLOOR : R := 0.8.
Definition HOVER_LIFT : R := 0.04.

Record Quaternion : Type := mkQuaternion { qx : R; qy : R; qz : R; qw : R }.

(** three.js [Vector3.multiplyScalar] and [Vector3.lerp] (library code:
    [this.x += (v.x - this.x) * alpha], likewise y and z). *)
Definition multiplyScalar (v : Vector3) (k : R) : Vector3 :=
  mkVector3 (x v * k) (y v * k) (z v * k).

Definition lerpTo (p v : Vector3) (alpha : R) : Vector3 :=
  mkVector3 (x p + (x v - x p) * alpha) (y p + (y v - y p) * alpha)
            (z p + (z v - z p) * alpha).

(** What the callback reads of the camera: its position, the vector
    returned by [camera.getWorldDirection] and its quaternion. *)
Record Camera : Type := mkCamera {
  cameraPosition : Vector3;
  worldDirection : Vector3;
  cameraQuaternion : Quaternion
}.

(** The props the callback uses: [defaultPosition] and [defaultQuaternion]
    (lines 58-65, from [tablePosition] and [tableRotation]) and [isActive]. *)
Record Props : Type := mkProps {
  defaultPosition : Vector3;
  defaultQuaternion : Quaternion;
  isActive : bool
}.

(** The [Group] behind [groupRef]. *)
Record Group : Type := mkGroup { position : Vector3; quaternion : Quaternion }.

(** The component's state: [groupRef.current] and the [isHovered] state. *)
Record Card : Type := mkCard { group : option Group; isHovered : bool }.

(** [cameraOffset] (line 85). *)
Definition cameraOffset : Vector3 := mkVector3 0 (-0.05) 0.

(** [positionTarget] as lines 96-115 leave it. *)
Definition positionTarget (camera : Camera) (props : Props) (hovered : bool)
  : Vector3 :=
  if isActive props then
    let t := add (add (cameraPosition camera)
                      (multiplyScalar (worldDirection camera) CAMERA_DISTANCE))
                 cameraOffset in
    if decide (y t < CAMERA_Y_FLOOR) then mkVector3 (x t) CAMERA_Y_FLOOR (z t) else t
  else
    let t := defaultPosition props in
    if hovered then mkVector3 (x t) (y t + HOVER_LIFT) (z t) else t.

(** [rotationTarget] as lines 108 and 114 leave it. *)
Definition rotationTarget (camera : Camera) (props : Props) : Quaternion :=
  if isActive props then cameraQuaternion camera else defaultQuaternion props.

(** The callback given to [useFrame] (lines 87-122); [slerp] is three.js
    [Quaternion.slerp] (library code, left abstract). *)
Definition frame (slerp : Quaternion -> Quaternion -> R -> Quaternion)
    (camera : Camera) (props : Props) (delta : R) (c : Card) : Card :=
  match group c with
  | None => c
  | Some g =>
      let lerpAlpha := 1 - exp (- delta * 12) in
      let slerpAlpha := 1 - exp (- delta * 10) in
      {| group :=
           Some {| position :=
                     lerpTo (position g) (positionTarget camera props (isHovered c))
                            lerpAlpha;
                   quaternion :=
                     slerp (quaternion g) (rotationTarget camera props) slerpAlpha |};
         isHovered := isHovered c |}
  end.

(** The effect that puts the group on the table (lines 67-74). *)
Definition placeEffect (props : Props) (c : Card) : Card :=
  match group c with
  | None => c
  | Some _ =>
      {| group := Some {| position := defaultPosition props;
                          quaternion := defaultQuaternion props |};
         isHovered := isHovered c |}
  end.

(** A run of frames under one camera pose and one set of props. *)
Definition frames (slerp : Quaternion -> Quaternion -> R -> Quaternion)
    (camera : Camera) (props : Props) (deltas : list R) (c : Card) : Card :=
  fold_left (fun c delta => frame slerp camera props delta c) deltas c.

(** The card's position, where the group is attached. *)
Definition positionOf (c : Card) : option Vector3 :=
  match group c with
  | None => None
  | Some g => Some (position g)
  end.

End BirthdayCard.

Module Candle.

(** What the callback writes of the [PointLight] behind [lightRef]. *)
Record Light : Type := mkLight {
  intensity : R;
  lightPosition : Vector3;
  visible : bool
}.

(** The component's mutable state: the two flame uniforms, the value of
    [lightStrengthRef], the light behind [lightRef] and the [visible] flag
    of the mesh behind [flameMeshRef], where they are attached. *)
Record State : Type := mkState {
  time : R;
  strength : R;
  lightStrength : R;
  light : option Light;
  flameVisible : option bool
}.

(** [isLit ? 1 : 0]. *)
Definition targetStrength (isLit : bool) : R := if isLit then 1 else 0.

(** The effect run when [isLit] changes, and on mount (cake.tsx, candle
    part, lines 247-250). *)
Definition litEffect (isLit : bool) (c : State) : State :=
  {| time := time c; strength := targetStrength isLit;
     lightStrength := targetStrength isLit;
     light := light c; flameVisible := flameVisible c |}.

(** The callback given to [useFrame] (lines 252-288), with
    [clock.elapsedTime] as [elapsed]. *)
Definition frame (isLit : bool) (elapsed delta : R) (c : State) : State :=
  let strength' := damp (strength c) (targetStrength isLit) 4 delta in
  match light c with
  | None =>
      {| time := elapsed; strength := strength';
         lightStrength := lightStrength c; light := None;
         flameVisible := flameVisible c |}
  | Some _ =>
      let lightStrength' := damp (lightStrength c) (targetStrength isLit) 4 delta in
      let flicker :=
        sin (elapsed * 10.0) * 0.08 + sin (elapsed * 15.3) * 0.04
        + sin (elapsed * 8.7) * 0.03 in
      {| time := elapsed; strength := strength';
         lightStrength := lightStrength';
         light :=
           Some {| intensity := Rmax 0 (lightStrength' + flicker * strength' * 0.5);
                   lightPosition :=
                     mkVector3 (sin (elapsed * 3.0) * 0.05)
                               (3.5 + sin (elapsed * 5.0) * 0.1)
                               (cos (elapsed * 2.7) * 0.05);
                   visible := bool_decide (strength' > 0.02) |};
         flameVisible :=
           match flameVisible c with
           | None => None
           | Some _ => Some (bool_decide (strength' > 0.02))
           end |}
  end.

(** A candle as it is mounted: both refs attached, the uniforms at their
    initial values (lines 222-225), [lightStrengthRef] at [isLit ? 1 : 0]
    (line 219), and a [PointLight] with three.js's defaults. *)
Definition initial (isLit : bool) : State :=
  {| time := 0; strength := 1; lightStrength := targetStrength isLit;
     light := Some {| intensity := 1; lightPosition := mkVector3 0 0 0;
                      visible := true |};
     flameVisible := Some true |}.

(** What happens to a mounted candle: the [isLit] effect runs, or a frame
    is rendered while the prop is [isLit]. *)
Inductive Event : Type :=
| LitEffect (isLit : bool)
| Frame (isLit : bool) (elapsed delta : R).

Definition step (e : Event) (c : State) : State :=
  match e with
  | LitEffect isLit => litEffect isLit c
  | Frame isLit elapsed delta => frame isLit elapsed delta c
  end.

Definition run (events : list Event) (c : State) : State :=
  fold_left (fun c e => step e c) events c.

(** A frame with a non-negative [delta]; an effect always qualifies. *)
Definition forward (e : Event) : Prop :=
  match e with
  | LitEffect _ => True
  | Frame _ _ delta => 0 <= delta
  end.

(** A frame rendered while the prop is [isLit]; no effect. *)
Definition frameWhile (isLit : bool) (e : Event) : Prop :=
  match e with
  | LitEffect _ => False
  | Frame isLit' _ _ => isLit' = isLit
  end.

End Candle.

Arguments TOTAL_PARTICLES : simpl never.

(** ** Stores and loads on one particle *)

(** Runs a monadic program on a state given by its components. *)
Ltac run :=
  cbv [exec bind ret load modifyData setOpacity Math_random randomColor
       storePositions storeVelocities storeOrigins storeBaseColors storeColors
       storeAges storeLifetimes
       fst snd attached opacity data drawn positions velocities origins
       baseColors colors ages lifetimes];
  cbn [x y z r g b add scale
       currentPosition velocity origin baseColor currentColor age lifetime].

Ltac lookups :=
  repeat first
    [ rewrite list_lookup_total_insert_ne by lia
    | rewrite list_lookup_total_insert_eq by (rewrite ?length_insert; lia) ].

Ltac open_state s :=
  let d := fresh "d" in
  destruct s as [? ? d ?]; destruct d as [? ? ? ? ? ? ?].

(** ** Damping *)

Lemma exp_nonpos_bounds (u : R) : u <= 0 -> 0 < exp u <= 1.
Proof.
  intros Hu. split; [apply exp_pos |].
  destruct (Req_dec u 0) as [-> | Hne].
  - rewrite exp_0. lra.
  - rewrite <- exp_0. left. apply exp_increasing. lra.
Qed.

Lemma damp_dampReference (u v lambda dt : R) :
  damp u v lambda dt = dampReference u v lambda dt.
Proof. unfold damp, lerp, dampReference. ring. Qed.

(** For a non-negative rate and time step the damped value lies between
    the old value and the target. *)
Lemma damp_between (u v lambda dt : R) :
  0 <= lambda -> 0 <= dt -> Rmin u v <= damp u v lambda dt <= Rmax u v.
Proof.
  intros Hl Hd. unfold damp, lerp.
  assert (He : 0 < exp (- lambda * dt) <= 1) by (apply exp_nonpos_bounds; nra).
  set (e := exp (- lambda * dt)) in *.
  unfold Rmin, Rmax. destruct (Rle_dec u v); nra.
Qed.

(** ** Sequencing and the counting loop *)

Lemma exec_seq {A B : Type} (m : M A) (k : M B) (s : Sim) :
  exec (m ;; k) s = exec k (exec m s).
Proof. unfold exec, bind. destruct (m s). reflexivity. Qed.

Lemma forRange_snoc from c body s :
  exec (forRange from (S c) body) s
  = exec (body (from + c)%nat) (exec (forRange from c body) s).
Proof.
  revert from s. induction c as [| c IH]; intros from s.
  - cbn [forRange]. rewrite exec_seq, Nat.add_0_r. reflexivity.
  - change (forRange from (S (S c)) body)
      with (body from ;; forRange (S from) (S c) body).
    rewrite exec_seq, IH.
    change (forRange from (S c) body) with (body from ;; forRange (S from) c body).
    rewrite exec_seq. replace (S from + c)%nat with (from + S c)%nat by lia.
    reflexivity.
Qed.

Lemma forRange_app from c1 c2 body s :
  exec (forRange from (c1 + c2) body) s
  = exec (forRange (from + c1) c2 body) (exec (forRange from c1 body) s).
Proof.
  revert s. induction c2 as [| c2 IH]; intros s.
  - rewrite Nat.add_0_r. reflexivity.
  - replace (c1 + S c2)%nat with (S (c1 + c2)) by lia.
    rewrite !forRange_snoc, IH. replace (from + c1 + c2)%nat with (from + (c1 + c2))%nat by lia.
    reflexivity.
Qed.

(** A property kept by every iteration is kept by the loop. *)
Lemma forRange_invariant (P : Sim -> Prop) from c body :
  (forall j s, (from <= j < from + c)%nat -> P s -> P (exec (body j) s)) ->
  forall s, P s -> P (exec (forRange from c body) s).
Proof.
  induction c as [| c IH]; intros Hbody s Hs.
  - exact Hs.
  - rewrite forRange_snoc. apply Hbody; [lia |].
    apply IH; [| exact Hs]. intros j s' Hj. apply Hbody. lia.
Qed.

Section Properties.

Variable env : Env.

Lemma resetParticle_drawn i s :
  drawn (exec (resetParticle env i) s) = (drawn s + 10)%nat.
Proof. open_state s. unfold resetParticle. run. lia. Qed.

Lemma resetParticle_opacity i s :
  opacity (exec (resetParticle env i) s) = opacity s.
Proof. open_state s. unfold resetParticle. run. reflexivity. Qed.

Lemma resetParticle_attached i s :
  attached (exec (resetParticle env i) s) = attached s.
Proof. open_state s. unfold resetParticle. run. reflexivity. Qed.

Lemma resetParticle_wellSized i s :
  wellSized (data s) -> wellSized (data (exec (resetParticle env i) s)).
Proof.
  open_state s. unfold wellSized, resetParticle. run.
  rewrite !length_insert. trivial.
Qed.

Lemma resetParticle_particle i s :
  (i < TOTAL_PARTICLES)%nat -> wellSized (data s) ->
  particle (data (exec (resetParticle env i) s)) i = freshParticle env (drawn s).
Proof.
  open_state s. unfold wellSized. run. intros Hi (Hp & Hv & Ho & Hb & Hc & Ha & Hl).
  unfold particle, freshParticle, vec3At, colorAt, resetParticle. run.
  lookups. rewrite !Nat.add_succ_r, !Nat.add_0_r.
  destruct (setHSL env _ _ _). reflexivity.
Qed.

Lemma resetParticle_other i j s :
  i <> j -> particle (data (exec (resetParticle env i) s)) j = particle (data s) j.
Proof.
  open_state s. intros Hij.
  unfold particle, vec3At, colorAt, resetParticle. run.
  lookups. reflexivity.
Qed.

Lemma particleStep_particle delta i s :
  (i < TOTAL_PARTICLES)%nat -> wellSized (data s) ->
  particle (data (exec (particleStep env delta i) s)) i
  = stepParticle env delta (particle (data s) i) (drawn s).
Proof.
  open_state s. unfold wellSized. run. intros Hi (Hp & Hv & Ho & Hb & Hc & Ha & Hl).
  unfold stepParticle, particle, vec3At, colorAt, particleStep. run. lookups.
  destruct (decide (_ < 0)) as [Hneg | Hneg].
  - unfold held. run. lookups. reflexivity.
  - destruct (decide (_ \/ _)) as [Hg | Hg].
    + unfold freshParticle, resetParticle. run. lookups.
      rewrite !Nat.add_succ_r, !Nat.add_0_r.
      destruct (setHSL env _ _ _). reflexivity.
    + unfold integrated. run. lookups. reflexivity.
Qed.

Lemma particleStep_other delta i j s :
  i <> j -> particle (data (exec (particleStep env delta i) s)) j = particle (data s) j.
Proof.
  open_state s. intros Hij.
  unfold particle, vec3At, colorAt, particleStep. run.
  destruct (decide (_ < 0)); [| destruct (decide (_ \/ _))];
    unfold resetParticle; run; lookups; reflexivity.
Qed.

Lemma particleStep_drawn delta i s :
  (i < TOTAL_PARTICLES)%nat -> wellSized (data s) ->
  drawn (exec (particleStep env delta i) s)
  = (drawn s + stepDraws env delta (particle (data s) i))%nat.
Proof.
  open_state s. unfold wellSized. run. intros Hi (Hp & Hv & Ho & Hb & Hc & Ha & Hl).
  unfold stepDraws, particle, vec3At, particleStep. run. lookups.
  destruct (decide (_ < 0)); [| destruct (decide (_ \/ _))];
    unfold resetParticle; run; lia.
Qed.

Lemma particleStep_opacity delta i s :
  opacity (exec (particleStep env delta i) s) = opacity s.
Proof.
  open_state s. unfold particleStep. run.
  destruct (decide (_ < 0)); [| destruct (decide (_ \/ _))];
    unfold resetParticle; run; reflexivity.
Qed.

Lemma particleStep_attached delta i s :
  attached (exec (particleStep env delta i) s) = attached s.
Proof.
  open_state s. unfold particleStep. run.
  destruct (decide (_ < 0)); [| destruct (decide (_ \/ _))];
    unfold resetParticle; run; reflexivity.
Qed.

Lemma particleStep_wellSized delta i s :
  wellSized (data s) -> wellSized (data (exec (particleStep env delta i) s)).
Proof.
  open_state s. unfold wellSized, particleStep. run.
  destruct (decide (_ < 0)); [| destruct (decide (_ \/ _))];
    unfold resetParticle; run; rewrite !length_insert; trivial.
Qed.

(** ** The particle loop *)

Lemma loop_wellSized delta from c s :
  wellSized (data s) ->
  wellSized (data (exec (forRange from c (particleStep env delta)) s)).
Proof.
  apply (forRange_invariant (fun s => wellSized (data s))).
  intros j s' _. apply particleStep_wellSized.
Qed.

Lemma loop_opacity delta from c s :
  opacity (exec (forRange from c (particleStep env delta)) s) = opacity s.
Proof.
  apply (forRange_invariant (fun s' => opacity s' = opacity s)); [| reflexivity].
  intros j s' _ H. rewrite particleStep_opacity. exact H.
Qed.

Lemma loop_attached delta from c s :
  attached (exec (forRange from c (particleStep env delta)) s) = attached s.
Proof.
  apply (forRange_invariant (fun s' => attached s' = attached s)); [| reflexivity].
  intros j s' _ H. rewrite particleStep_attached. exact H.
Qed.

(** The loop over [[from, from + c)] leaves the other particles alone. *)
Lemma loop_other delta from c i s :
  (i < from \/ from + c <= i)%nat ->
  particle (data (exec (forRange from c (particleStep env delta)) s)) i
  = particle (data s) i.
Proof.
  intros Hi.
  apply (forRange_invariant (fun s' => particle (data s') i = particle (data s) i));
    [| reflexivity].
  intros j s' Hj H. rewrite particleStep_other by lia. exact H.
Qed.

Lemma loop_drawn_le delta from c s :
  (from + c <= TOTAL_PARTICLES)%nat -> wellSized (data s) ->
  (drawn s <= drawn (exec (forRange from c (particleStep env delta)) s))%nat.
Proof.
  intros Hc Hs.
  enough (wellSized (data (exec (forRange from c (particleStep env delta)) s)) /\
          (drawn s <= drawn (exec (forRange from c (particleStep env delta)) s))%nat)
    as [_ H] by exact H.
  apply (forRange_invariant (fun s' => wellSized (data s') /\ (drawn s <= drawn s')%nat));
    [| split; [exact Hs | lia]].
  intros j s' Hj [Hw Hd]. split; [apply particleStep_wellSized, Hw |].
  rewrite particleStep_drawn by (trivial; lia). lia.
Qed.

(** Particle [i] after the whole loop is what its own iteration made of it. *)
Lemma loop_particle delta n i s :
  (i < n)%nat -> (n <= TOTAL_PARTICLES)%nat -> wellSized (data s) ->
  particle (data (exec (forRange 0 n (particleStep env delta)) s)) i
  = stepParticle env delta (particle (data s) i)
      (drawn (exec (forRange 0 i (particleStep env delta)) s)).
Proof.
  intros Hi Hn Hs.
  replace n with (i + S (n - S i))%nat by lia.
  rewrite forRange_app.
  change (forRange (0 + i) (S (n - S i)) (particleStep env delta))
    with (particleStep env delta i ;; forRange (S i) (n - S i) (particleStep env delta)).
  rewrite exec_seq, loop_other by lia.
  rewrite particleStep_particle by (try apply loop_wellSized; trivial; lia).
  rewrite loop_other by lia. reflexivity.
Qed.

(** ** The frame callback *)

Lemma advance_active delta s :
  attached s = true ->
  exec (advance env delta true) s
  = exec (forRange 0 TOTAL_PARTICLES (particleStep env delta))
         (exec (setOpacity (damp (opacity s) 0.85 2.5 delta)) s).
Proof.
  intros Ha. unfold advance, exec at 1. rewrite Ha. cbn [negb].
  fold (exec (setOpacity (damp (opacity s) 0.85 2.5 delta) ;;
              forRange 0 TOTAL_PARTICLES (particleStep env delta)) s).
  apply exec_seq.
Qed.

Lemma reach_eq delta i s :
  exec (reach env delta i) s
  = exec (forRange 0 i (particleStep env delta))
         (exec (setOpacity (damp (opacity s) 0.85 2.5 delta)) s).
Proof.
  unfold reach, exec at 1.
  fold (exec (setOpacity (damp (opacity s) 0.85 2.5 delta) ;;
              forRange 0 i (particleStep env delta)) s).
  apply exec_seq.
Qed.

Lemma reach_wellSized delta i s :
  wellSized (data s) -> wellSized (data (exec (reach env delta i) s)).
Proof. intros H. rewrite reach_eq. apply loop_wellSized. exact H. Qed.

Lemma reach_particle delta i s :
  particle (data (exec (reach env delta i) s)) i = particle (data s) i.
Proof. rewrite reach_eq, loop_other by lia. reflexivity. Qed.

Lemma advance_particle delta i s :
  attached s = true -> (i < TOTAL_PARTICLES)%nat -> wellSized (data s) ->
  particle (data (exec (advance env delta true) s)) i
  = stepParticle env delta (particle (data s) i) (drawn (exec (reach env delta i) s)).
Proof.
  intros Ha Hi Hs. rewrite advance_active, reach_eq by exact Ha.
  rewrite loop_particle by (trivial; lia). reflexivity.
Qed.

Lemma advance_wellSized delta isActive s :
  wellSized (data s) -> wellSized (data (exec (advance env delta isActive) s)).
Proof.
  intros Hs. unfold advance, exec.
  destruct (attached s); cbn [negb]; [| exact Hs].
  destruct isActive; cbn [negb]; [| exact Hs].
  fold (exec (setOpacity (damp (opacity s) 0.85 2.5 delta) ;;
              forRange 0 TOTAL_PARTICLES (particleStep env delta)) s).
  rewrite exec_seq. apply loop_wellSized. exact Hs.
Qed.

Lemma advance_detached delta isActive s :
  attached s = false -> exec (advance env delta isActive) s = s.
Proof. intros Ha. unfold advance, exec. rewrite Ha. reflexivity. Qed.

Lemma advance_inactive delta s :
  attached s = true ->
  exec (advance env delta false) s = exec (setOpacity (damp (opacity s) 0 5 delta)) s.
Proof. intros Ha. unfold advance, exec. rewrite Ha. reflexivity. Qed.

Lemma advance_opacity delta isActive s :
  attached s = true ->
  opacity (exec (advance env delta isActive) s)
  = damp (opacity s) (targetOf isActive) (rateOf isActive) delta.
Proof.
  intros Ha. destruct isActive.
  - rewrite advance_active, loop_opacity by exact Ha. reflexivity.
  - rewrite advance_inactive by exact Ha. reflexivity.
Qed.

Lemma advance_attached delta isActive s :
  attached (exec (advance env delta isActive) s) = attached s.
Proof.
  destruct (attached s) eqn:Ha; [| rewrite advance_detached; assumption].
  destruct isActive.
  - rewrite advance_active, loop_attached by exact Ha. exact Ha.
  - rewrite advance_inactive by exact Ha. exact Ha.
Qed.

Lemma advance_inactive_data delta s :
  data (exec (advance env delta false) s) = data s
  /\ drawn (exec (advance env delta false) s) = drawn s.
Proof.
  destruct (attached s) eqn:Ha.
  - rewrite advance_inactive by exact Ha. split; reflexivity.
  - rewrite advance_detached by exact Ha. split; reflexivity.
Qed.

Lemma advanceAll_cons delta isActive frames s :
  exec (advanceAll env ((delta, isActive) :: frames)) s
  = exec (advanceAll env frames) (exec (advance env delta isActive) s).
Proof. cbn [advanceAll]. apply exec_seq. Qed.

Lemma advanceAll_attached frames s :
  attached (exec (advanceAll env frames) s) = attached s.
Proof.
  revert s. induction frames as [| [delta a] frames IH]; intros s; [reflexivity |].
  rewrite advanceAll_cons, IH. apply advance_attached.
Qed.

(** One frame keeps the opacity between its old value and the target. *)
Lemma advance_between delta isActive s :
  0 <= delta ->
  Rmin (opacity s) (targetOf isActive)
  <= opacity (exec (advance env delta isActive) s)
  <= Rmax (opacity s) (targetOf isActive).
Proof.
  intros Hd. destruct (attached s) eqn:Ha.
  - rewrite advance_opacity by exact Ha. apply damp_between; [| exact Hd].
    destruct isActive; unfold rateOf; lra.
  - rewrite advance_detached by exact Ha.
    split; [apply Rmin_l | apply Rmax_l].
Qed.



(** The iteration of particle [i] draws ten numbers or none. *)
Lemma recycles_draws delta i s :
  (i < TOTAL_PARTICLES)%nat -> wellSized (data s) ->
  recycles env delta s i <-> stepDraws env delta (particle (data s) i) = 10%nat.
Proof.
  intros Hi Hs. unfold recycles.
  rewrite particleStep_drawn by (try apply reach_wellSized; trivial).
  rewrite reach_particle. unfold stepDraws.
  destruct (decide (_ < 0)); [| destruct (decide (_ \/ _))]; split; intros; lia.
Qed.

End Properties.

(** ** The three branches of an iteration *)

Lemma stepParticle_cases env delta p k :
  let a := age p + delta in
  (a < 0 /\ stepParticle env delta p k = held p a /\
   stepDraws env delta p = 0%nat)
  \/ (0 <= a /\ recycleGuard env p a /\
      stepParticle env delta p k = freshParticle env k /\
      stepDraws env delta p = 10%nat)
  \/ (0 <= a /\ ~ recycleGuard env p a /\
      stepParticle env delta p k = integrated p a /\
      stepDraws env delta p = 0%nat).
Proof.
  unfold stepParticle, stepDraws, recycleGuard. cbv zeta.
  destruct (decide (age p + delta < 0)) as [Hneg | Hneg].
  - left. auto.
  - right. assert (0 <= age p + delta) by lra.
    destruct (decide (_ \/ _)) as [Hg | Hg]; [left | right]; auto.
Qed.

(** Whether the iteration of particle [i] recycles it is decided by the
    particle as the call finds it. *)
Lemma recycles_guard env delta i s :
  (i < TOTAL_PARTICLES)%nat -> wellSized (data s) ->
  recycles env delta s i
  <-> 0 <= age (particle (data s) i) + delta
      /\ recycleGuard env (particle (data s) i) (age (particle (data s) i) + delta).
Proof.
  intros Hi Hs. rewrite recycles_draws by assumption.
  destruct (stepParticle_cases env delta (particle (data s) i) 0%nat)
    as [(Ha & _ & Hd) | [(Ha & Hg & _ & Hd) | (Ha & Hg & _ & Hd)]];
    rewrite Hd; split; intros H; try lia; try tauto; destruct H; lra.
Qed.

Section Branches.

Variable env : Env.
Variables (delta : R) (s : Sim) (i : nat).
Hypothesis Hattached : attached s = true.
Hypothesis HwellSized : wellSized (data s).
Hypothesis Hindex : (i < TOTAL_PARTICLES)%nat.

#[local] Abbreviation p := (particle (data s) i).
#[local] Abbreviation a := (age (particle (data s) i) + delta).
#[local] Abbreviation p' := (particle (data (exec (advance env delta true) s)) i).

Lemma advance_holds :
  a < 0 -> p' = held p a /\ ~ recycles env delta s i.
Proof.
  intros Ha. rewrite recycles_guard, advance_particle by assumption.
  destruct (stepParticle_cases env delta p (drawn (exec (reach env delta i) s)))
    as [(_ & H & _) | [(Hn & _) | (Hn & _)]]; try lra.
  split; [exact H | intros [H0 _]; lra].
Qed.

Lemma advance_recycles :
  0 <= a -> recycleGuard env p a ->
  p' = freshParticle env (drawn (exec (reach env delta i) s))
  /\ recycles env delta s i.
Proof.
  intros Ha Hg. rewrite recycles_guard, advance_particle by assumption.
  destruct (stepParticle_cases env delta p (drawn (exec (reach env delta i) s)))
    as [(Hn & _) | [(_ & _ & H & _) | (_ & Hn & _)]]; try lra; try tauto.
Qed.

Lemma advance_integrates :
  0 <= a -> ~ recycleGuard env p a ->
  p' = integrated p a /\ ~ recycles env delta s i.
Proof.
  intros Ha Hg. rewrite recycles_guard, advance_particle by assumption.
  destruct (stepParticle_cases env delta p (drawn (exec (reach env delta i) s)))
    as [(Hn & _) | [(_ & Hn & _) | (_ & _ & H & _)]]; try lra; try tauto.
Qed.

End Branches.

(** ** The concrete pools *)

Lemma TOTAL_PARTICLES_eq : TOTAL_PARTICLES = 1000%nat.
Proof. reflexivity. Qed.

Lemma Float32Array_length n : length (Float32Array n) = n.
Proof. apply length_replicate. Qed.

Lemma Float32Array_lookup n i : (i < n)%nat -> Float32Array n !!! i = 0.
Proof. intros Hi. unfold Float32Array. apply lookup_total_replicate_2. exact Hi. Qed.

Lemma emptyData_wellSized : wellSized emptyData.
Proof. unfold wellSized, emptyData; cbn [positions velocities origins baseColors colors ages lifetimes]. rewrite !Float32Array_length. tauto. Qed.

Lemma poolAt_wellSized h v : wellSized (data (poolAt h v)).
Proof.
  unfold wellSized, poolAt;
    cbn [data positions velocities origins baseColors colors ages lifetimes].
  rewrite !length_insert, !Float32Array_length. tauto.
Qed.

Lemma poolAt_particle h v :
  particle (data (poolAt h v)) 0
  = {| currentPosition := mkVector3 0 h 0; velocity := mkVector3 0 v 0;
       origin := mkVector3 0 h 0; baseColor := black; currentColor := black;
       age := 0; lifetime := 2 |}.
Proof.
  pose proof TOTAL_PARTICLES_eq as HN.
  unfold particle, vec3At, colorAt, poolAt, black;
    cbn [data positions velocities origins baseColors colors ages lifetimes Nat.mul Nat.add].
  repeat first
    [ rewrite list_lookup_total_insert_ne by lia
    | rewrite list_lookup_total_insert_eq by (rewrite Float32Array_length; lia)
    | rewrite Float32Array_lookup by lia ].
  reflexivity.
Qed.

(** ** Recycling, integration and the delay *)

(** C1 (as the code has it). In [advance delta true], a particle whose age
    after the increment is non-negative is recycled exactly when that age
    exceeds its lifetime or the vertical position stored by the previous
    update is below [anchor.y - 1.5]; a recycled particle is a freshly
    reset one, any other is integrated; and a particle that this call
    integrates to a height below the floor is recycled by the next call
    with a non-negative delta. *)
Theorem C1_recycle_guard_reads_stored_position env delta s i :
  attached s = true -> wellSized (data s) -> (i < TOTAL_PARTICLES)%nat ->
  let p := particle (data s) i in
  let a := age p + delta in
  let s' := exec (advance env delta true) s in
  0 <= a ->
  (recycles env delta s i
   <-> a > lifetime p \/ y (currentPosition p) < y (baseOrigin env) - 1.5)
  /\ (recycles env delta s i ->
      exists k, (drawn s <= k)%nat /\ particle (data s') i = freshParticle env k)
  /\ (~ recycles env delta s i -> particle (data s') i = integrated p a)
  /\ (~ recycles env delta s i ->
      y (currentPosition (integrated p a)) < y (baseOrigin env) - 1.5 ->
      forall delta', 0 <= delta' -> recycles env delta' s' i).
Proof.
  intros Hatt Hs Hi p a s' Ha. subst a.
  pose proof (recycles_guard env delta i s Hi Hs) as Hrec.
  pose proof (advance_particle env delta i s Hatt Hi Hs) as Hstep.
  fold p in Hrec. fold p s' in Hstep.
  destruct (stepParticle_cases env delta p (drawn (exec (reach env delta i) s)))
    as [(Hn & _) | [(_ & Hg & Hfresh & _) | (_ & Hg & Hint & _)]];
    [lra | |].
  - rewrite Hfresh in Hstep. unfold recycleGuard in Hg.
    split; [tauto |]. split; [| split].
    + intros _. exists (drawn (exec (reach env delta i) s)). split; [| exact Hstep].
      rewrite reach_eq.
      change (drawn s)
        with (drawn (exec (setOpacity (damp (opacity s) 0.85 2.5 delta)) s)).
      apply (loop_drawn_le env delta 0 i); [lia | exact Hs].
    + intros Hno. exfalso. apply Hno, Hrec. split; assumption.
    + intros Hno. exfalso. apply Hno, Hrec. split; assumption.
  - rewrite Hint in Hstep. unfold recycleGuard in Hg.
    split; [| split; [| split]].
    + split; [intros H; apply Hrec in H; unfold recycleGuard in H; tauto | tauto].
    + intros H. apply Hrec in H. unfold recycleGuard in H. tauto.
    + intros _. exact Hstep.
    + intros _ Hlow delta' Hd'.
      apply recycles_guard; [exact Hi | apply advance_wellSized, Hs |].
      fold s'. rewrite Hstep. unfold recycleGuard.
      cbn [age integrated currentPosition] in *. split; [lra | right; exact Hlow].
Qed.

Lemma C1_witness :
  let p := particle (data (poolAt 5 0)) 0 in
  let a := age p + 1 in
  let s' := exec (advance zeroDraws 1 true) (poolAt 5 0) in
  (recycles zeroDraws 1 (poolAt 5 0) 0
   <-> a > lifetime p \/ y (currentPosition p) < y (baseOrigin zeroDraws) - 1.5)
  /\ (recycles zeroDraws 1 (poolAt 5 0) 0 ->
      exists k, (drawn (poolAt 5 0) <= k)%nat
                /\ particle (data s') 0 = freshParticle zeroDraws k)
  /\ (~ recycles zeroDraws 1 (poolAt 5 0) 0 -> particle (data s') 0 = integrated p a)
  /\ (~ recycles zeroDraws 1 (poolAt 5 0) 0 ->
      y (currentPosition (integrated p a)) < y (baseOrigin zeroDraws) - 1.5 ->
      forall delta', 0 <= delta' -> recycles zeroDraws delta' s' 0).
Proof.
  apply (C1_recycle_guard_reads_stored_position zeroDraws 1 (poolAt 5 0) 0).
  - reflexivity.
  - apply poolAt_wellSized.
  - rewrite TOTAL_PARTICLES_eq. lia.
  - rewrite poolAt_particle. cbn [age]. lra.
Defined.

(** C1 as stated fails: particle 0 rests at height 5 over the anchor
    [(0, 5, -14)], floor 3.5, lifetime 2.  The call [advance 1 true] takes
    its age to 1 and writes it at height 3, below the floor and before the
    age reaches the lifetime, yet does not recycle it. *)
Lemma C1_floor_recycle_is_one_call_late :
  let s := poolAt 5 0 in
  let s' := exec (advance zeroDraws 1 true) s in
  let p := particle (data s) 0 in
  (0 <= age p + 1 /\ age p + 1 < lifetime p)
  /\ y (currentPosition (particle (data s') 0)) = 3
  /\ 3 < y (baseOrigin zeroDraws) - 1.5
  /\ ~ recycles zeroDraws 1 s 0.
Proof.
  intros s s' p.
  assert (Hn : (0 < TOTAL_PARTICLES)%nat) by (rewrite TOTAL_PARTICLES_eq; lia).
  destruct (advance_integrates zeroDraws 1 s 0 eq_refl (poolAt_wellSized 5 0) Hn)
    as [Hp' Hno].
  - subst s. rewrite poolAt_particle. cbn [age]. lra.
  - subst s. rewrite poolAt_particle. unfold recycleGuard.
    cbn [age lifetime currentPosition y baseOrigin zeroDraws]. lra.
  - subst p s' s. rewrite Hp', poolAt_particle. unfold integrated, GRAVITY.
    cbn [age lifetime origin velocity currentPosition y baseOrigin zeroDraws].
    repeat split; try lra. exact Hno.
Qed.

(** C2. A particle with [0 <= age <= lifetime] after the increment that
    [advance delta true] does not recycle is written at
    [origin + velocity * age] in x and z and at
    [origin.y + velocity.y * age + 0.5 * GRAVITY * age^2] in y, with
    [GRAVITY = -4], and its color is [baseColor * max(0, 1 - age/lifetime)]. *)
Theorem C2_kinematic_integration env delta s i :
  attached s = true -> wellSized (data s) -> (i < TOTAL_PARTICLES)%nat ->
  let p := particle (data s) i in
  let a := age p + delta in
  let p' := particle (data (exec (advance env delta true) s)) i in
  0 <= a <= lifetime p -> ~ recycles env delta s i ->
  GRAVITY = -4
  /\ x (currentPosition p') = x (origin p) + x (velocity p) * a
  /\ y (currentPosition p') = y (origin p) + y (velocity p) * a + 0.5 * GRAVITY * a ^ 2
  /\ z (currentPosition p') = z (origin p) + z (velocity p) * a
  /\ currentColor p' = scale (baseColor p) (Rmax 0 (1 - a / lifetime p))
  /\ age p' = a.
Proof.
  intros Hatt Hs Hi p a p' Ha Hno.
  assert (Hg : ~ recycleGuard env p a).
  { intros Hg. apply Hno. apply recycles_guard; [exact Hi | exact Hs |].
    split; [apply Ha | exact Hg]. }
  destruct (advance_integrates env delta s i Hatt Hs Hi (proj1 Ha) Hg) as [Hp' _].
  subst p'. rewrite Hp'. unfold integrated.
  cbn [currentPosition currentColor age x y z].
  subst a p. repeat split; try reflexivity. ring.
Qed.

(** The kinematic check of the specification: origin [(0, 10, 0)], velocity
    [(0, 2, 0)], age 1 gives height 10 and leaves x and z at the origin's. *)
Lemma C2_witness :
  let p' := particle (data (exec (advance zeroDraws 1 true) (poolAt 10 2))) 0 in
  x (currentPosition p') = 0 /\ y (currentPosition p') = 10 /\
  z (currentPosition p') = 0 /\ age p' = 1.
Proof.
  assert (Hn : (0 < TOTAL_PARTICLES)%nat) by (rewrite TOTAL_PARTICLES_eq; lia).
  destruct (C2_kinematic_integration zeroDraws 1 (poolAt 10 2) 0 eq_refl
              (poolAt_wellSized 10 2) Hn) as (_ & Hx & Hy & Hz & _ & Hage).
  - rewrite poolAt_particle. cbn [age lifetime]. lra.
  - intros Hrec. apply recycles_guard in Hrec;
      [| exact Hn | apply poolAt_wellSized].
    revert Hrec. rewrite poolAt_particle. unfold recycleGuard.
    cbn [age lifetime currentPosition y baseOrigin zeroDraws]. lra.
  - cbv zeta. rewrite Hx, Hy, Hz, Hage, poolAt_particle. unfold GRAVITY.
    cbn [age origin velocity x y z]. lra.
Defined.

(** C3. After [advance delta true], every particle whose age is negative is
    black and sits at its origin; and a particle whose age is still negative
    after the increment is not recycled by the call: it keeps its origin,
    velocity, base color and lifetime. *)
Theorem C3_delayed_particles_wait_at_origin env delta s i :
  attached s = true -> wellSized (data s) -> (i < TOTAL_PARTICLES)%nat ->
  let p := particle (data s) i in
  let p' := particle (data (exec (advance env delta true) s)) i in
  (age p' < 0 -> currentColor p' = black /\ currentPosition p' = origin p')
  /\ (age p + delta < 0 ->
      age p' = age p + delta /\ ~ recycles env delta s i /\
      origin p' = origin p /\ velocity p' = velocity p /\
      baseColor p' = baseColor p /\ lifetime p' = lifetime p).
Proof.
  intros Hatt Hs Hi p p'. split.
  - subst p'. rewrite advance_particle by assumption. fold p.
    destruct (stepParticle_cases env delta p (drawn (exec (reach env delta i) s)))
      as [(_ & H & _) | [(_ & _ & H & _) | (Ha & _ & H & _)]]; rewrite H.
    + intros _. split; reflexivity.
    + intros _. split; reflexivity.
    + cbn [integrated age]. intros Hneg. lra.
  - intros Hneg.
    destruct (advance_holds env delta s i Hatt Hs Hi Hneg) as [Hp' Hno].
    subst p'. rewrite Hp'. cbn [held age origin velocity baseColor lifetime].
    repeat split. exact Hno.
Qed.

Lemma C3_witness :
  let p := particle (data (poolAt 5 0)) 0 in
  let p' := particle (data (exec (advance zeroDraws (-0.5) true) (poolAt 5 0))) 0 in
  (age p' < 0 -> currentColor p' = black /\ currentPosition p' = origin p')
  /\ (age p + -0.5 < 0 ->
      age p' = age p + -0.5 /\ ~ recycles zeroDraws (-0.5) (poolAt 5 0) 0 /\
      origin p' = origin p /\ velocity p' = velocity p /\
      baseColor p' = baseColor p /\ lifetime p' = lifetime p).
Proof.
  apply (C3_delayed_particles_wait_at_origin zeroDraws (-0.5) (poolAt 5 0) 0).
  - reflexivity.
  - apply poolAt_wellSized.
  - rewrite TOTAL_PARTICLES_eq. lia.
Defined.





(** ** Reset *)

(** C4 (as the code has it). After [resetParticle index] on a valid index,
    with draws in [[0, 1)]: the origin is the anchor plus the drawn offset,
    the position equals that origin, the current color is black, the
    lifetime is [1.6 + r * 1.3], the velocity is built from the speed
    [1 + r * 1.4] in [[1.0, 2.4)] and the two drawn angles, and the age is
    [-r * 1.2], never positive and 0 when the draw is 0.  The bounds on
    lifetime and age are the claim's widened by the rounding of a
    [Float32Array] store: [[1.6, 2.9000001]] and [[-1.2000001, 0]]. *)
Theorem C4_reset_postcondition env s i :
  unitDraws env -> wellSized (data s) -> (i < TOTAL_PARTICLES)%nat ->
  let k := drawn s in
  let p := particle (data (exec (resetParticle env i) s)) i in
  let speed := 1 + random env (k + 5) * 1.4 in
  let theta := random env (k + 3) * PI * 2 in
  let phi := acos (random env (k + 4) * 2 - 1) * 0.9 in
  origin p = add (baseOrigin env)
               (mkVector3 ((random env k - 0.5) * 1000) (random env (k + 1) * 200)
                          ((random env (k + 2) - 0.5) * 1000))
  /\ currentPosition p = origin p
  /\ currentColor p = black
  /\ lifetime p = 1.6 + random env (k + 8) * 1.3
  /\ 1.6 <= lifetime p <= 2.9000001
  /\ 1.0 <= speed < 2.4
  /\ velocity p = mkVector3 (sin phi * cos theta * speed) (cos phi * (speed * 1.2))
                            (sin phi * sin theta * speed)
  /\ age p = - random env (k + 9) * 1.2
  /\ -1.2000001 <= age p <= 0
  /\ (random env (k + 9) = 0 -> age p = 0).
Proof.
  intros Hu Hs Hi k p speed theta phi. subst p speed theta phi.
  rewrite resetParticle_particle by assumption.
  fold k. unfold freshParticle.
  cbn [origin currentPosition currentColor lifetime velocity age].
  pose proof (Hu (k + 8)%nat) as H8. pose proof (Hu (k + 9)%nat) as H9.
  pose proof (Hu (k + 5)%nat) as H5.
  split; [reflexivity |]. split; [reflexivity |]. split; [reflexivity |].
  split; [reflexivity |]. split; [lra |]. split; [lra |].
  split; [reflexivity |]. split; [reflexivity |]. split; [lra |].
  intros H0. rewrite H0. lra.
Qed.

Lemma unitDraws_zeroDraws : unitDraws zeroDraws.
Proof. intros k. cbn [random zeroDraws]. lra. Qed.

Lemma unitDraws_halfDraws : unitDraws halfDraws.
Proof. intros k. cbn [random halfDraws]. lra. Qed.

Lemma mounted_index : (0 < TOTAL_PARTICLES)%nat.
Proof. rewrite TOTAL_PARTICLES_eq. lia. Qed.

Lemma C4_witness :
  let p := particle (data (exec (resetParticle halfDraws 0) mounted)) 0 in
  currentPosition p = origin p /\ currentColor p = black /\
  1.6 <= lifetime p <= 2.9000001 /\ -1.2000001 <= age p <= 0.
Proof.
  destruct (C4_reset_postcondition halfDraws mounted 0 unitDraws_halfDraws
              emptyData_wellSized mounted_index)
    as (_ & Hpos & Hcol & _ & Hlife & _ & _ & _ & Hage & _).
  cbv zeta. split; [exact Hpos |]. split; [exact Hcol |]. split; [exact Hlife |].
  exact Hage.
Defined.

(** C4 as stated fails on the age, and on the ranges as ranges of the
    cells.  When [Math.random] returns 0 the new age is 0, not negative,
    and the particle starts without delay (in binary32 the cell holds -0).
    When it returns the largest binary64 number below 1, the lifetime cell
    holds [12163482 * 2^-22] = 2.9000000953674316, above 2.9, and the age
    cell [-10066330 * 2^-23] = -1.2000000476837158, below -1.2. *)
Lemma C4_reset_age_can_be_zero :
  (unitDraws zeroDraws
   /\ age (particle (data (exec (resetParticle zeroDraws 0) mounted)) 0) = 0
   /\ ~ age (particle (data (exec (resetParticle zeroDraws 0) mounted)) 0) < 0)
  /\ IEEE.ageCell (S754_zero false) = S754_zero true
  /\ (IEEE.lifetimeCell IEEE.largestDraw = S754_finite false 12163482 (-22)
      /\ 2.9 * 2 ^ 22 < 12163482)
  /\ (IEEE.ageCell IEEE.largestDraw = S754_finite true 10066330 (-23)
      /\ 1.2 * 2 ^ 23 < 10066330).
Proof.
  split.
  - split; [exact unitDraws_zeroDraws |].
    rewrite resetParticle_particle
      by (exact mounted_index || exact emptyData_wellSized).
    unfold freshParticle. cbn [age random zeroDraws]. split; lra.
  - split; [vm_compute; reflexivity |].
    split; (split; [vm_compute; reflexivity | lra]).
Qed.

(** C10. The polar angle [phi = acos(2u - 1) * 0.9] lies in [[0, 0.9 * PI]]
    and the upward bias is not strict: for the draws that are all 0,
    [cos phi < 0] and [resetParticle] stores a negative vertical velocity. *)
Theorem C10_upward_bias_is_not_strict :
  (forall u : R, 0 <= acos (u * 2 - 1) * 0.9 <= 0.9 * PI)
  /\ exists env,
       unitDraws env /\
       let phi := acos (random env 4 * 2 - 1) * 0.9 in
       let p := particle (data (exec (resetParticle env 0) mounted)) 0 in
       cos phi < 0
       /\ y (velocity p) = cos phi * ((1 + random env 5 * 1.4) * 1.2)
       /\ y (velocity p) < 0.
Proof.
  split.
  - intros u. pose proof (acos_bound (u * 2 - 1)) as H. lra.
  - exists zeroDraws. split; [exact unitDraws_zeroDraws |]. cbv zeta.
    rewrite resetParticle_particle by (exact mounted_index || exact emptyData_wellSized).
    unfold freshParticle. cbn [velocity y random zeroDraws drawn mounted Nat.add].
    replace (0 * 2 - 1) with (- (1)) by lra.
    rewrite acos_opp, acos_1.
    assert (Hcos : cos ((PI - 0) * 0.9) < 0).
    { pose proof PI_RGT_0. apply cos_lt_0; lra. }
    split; [exact Hcos |]. split; [reflexivity |]. nra.
Qed.

(** ** Lifetimes *)

Section Lifetimes.

Variable env : Env.
Hypothesis Hunit : unitDraws env.

Lemma freshParticle_lifetime k : 1.6 <= lifetime (freshParticle env k) < 2.9.
Proof.
  unfold freshParticle. cbn [lifetime]. pose proof (Hunit (k + 8)%nat). lra.
Qed.

Lemma resetParticle_livePool i s :
  (i < TOTAL_PARTICLES)%nat -> livePool (data s) ->
  livePool (data (exec (resetParticle env i) s)).
Proof.
  intros Hi [Hs Hl]. split; [apply resetParticle_wellSized, Hs |].
  intros j Hj. destruct (Nat.eq_dec i j) as [<- | Hne].
  - rewrite resetParticle_particle by assumption. apply freshParticle_lifetime.
  - rewrite resetParticle_other by exact Hne. apply Hl, Hj.
Qed.

Lemma particleStep_livePool delta i s :
  (i < TOTAL_PARTICLES)%nat -> livePool (data s) ->
  livePool (data (exec (particleStep env delta i) s)).
Proof.
  intros Hi [Hs Hl]. split; [apply particleStep_wellSized, Hs |].
  intros j Hj. destruct (Nat.eq_dec i j) as [<- | Hne].
  - rewrite particleStep_particle by assumption.
    destruct (stepParticle_cases env delta (particle (data s) i) (drawn s))
      as [(_ & H & _) | [(_ & _ & H & _) | (_ & _ & H & _)]]; rewrite H.
    + cbn [held lifetime]. apply Hl, Hi.
    + apply freshParticle_lifetime.
    + cbn [integrated lifetime]. apply Hl, Hi.
  - rewrite particleStep_other by exact Hne. apply Hl, Hj.
Qed.

Lemma advance_livePool delta isActive s :
  livePool (data s) -> livePool (data (exec (advance env delta isActive) s)).
Proof.
  intros Hl. destruct (attached s) eqn:Ha;
    [| rewrite advance_detached by exact Ha; exact Hl].
  destruct isActive.
  - rewrite advance_active by exact Ha.
    apply (forRange_invariant (fun s' => livePool (data s'))); [| exact Hl].
    intros j s' Hj. apply particleStep_livePool. lia.
  - destruct (advance_inactive_data env delta s) as [-> _]. exact Hl.
Qed.

Lemma advanceAll_livePool frames s :
  livePool (data s) -> livePool (data (exec (advanceAll env frames) s)).
Proof.
  revert s. induction frames as [| [delta isActive] frames IH]; intros s Hl.
  - exact Hl.
  - rewrite advanceAll_cons. apply IH, advance_livePool, Hl.
Qed.

(** After the first [n] resets the first [n] lifetimes are in range. *)
Lemma resets_lifetimes n s :
  (n <= TOTAL_PARTICLES)%nat -> wellSized (data s) ->
  let s' := exec (forRange 0 n (resetParticle env)) s in
  wellSized (data s') /\
  forall i : nat, (i < n)%nat -> 1.6 <= lifetime (particle (data s') i) < 2.9.
Proof.
  intros Hn Hs. induction n as [| n IH].
  - split; [exact Hs | intros i Hi; lia].
  - cbv zeta. rewrite forRange_snoc. cbn [Nat.add].
    destruct IH as [Hw Hl]; [lia |]. split; [apply resetParticle_wellSized, Hw |].
    intros i Hi. destruct (Nat.eq_dec n i) as [<- | Hne].
    + rewrite resetParticle_particle by (trivial; lia). apply freshParticle_lifetime.
    + rewrite resetParticle_other by exact Hne. apply Hl. lia.
Qed.

Lemma initialize_livePool : livePool (data (exec (initialize env) mounted)).
Proof.
  apply (resets_lifetimes TOTAL_PARTICLES mounted); [lia | exact emptyData_wellSized].
Qed.

End Lifetimes.

(** C9. Every reset stores the lifetime [1.6 + r * 1.3] with [r] in
    [[0, 1)]; so after the initial reset of all 1000 particles, and after
    any run of frames from there, every lifetime is at least 1.6, hence
    positive: the divisor of [age / lifetime] in the fade is never zero. *)
Theorem C9_lifetime_is_never_zero env (frames : list (R * bool)) i :
  unitDraws env -> (i < TOTAL_PARTICLES)%nat ->
  let s0 := exec (initialize env) mounted in
  let s := exec (advanceAll env frames) s0 in
  TOTAL_PARTICLES = 1000%nat
  /\ (forall s1, wellSized (data s1) ->
       lifetime (particle (data (exec (resetParticle env i) s1)) i)
       = 1.6 + random env (drawn s1 + 8) * 1.3)
  /\ 1.6 <= lifetime (particle (data s0) i)
  /\ 1.6 <= lifetime (particle (data s) i)
  /\ 0 < lifetime (particle (data s) i)
  /\ lifetime (particle (data s) i) <> 0.
Proof.
  intros Hu Hi s0 s.
  assert (H0 : livePool (data s0)) by (apply initialize_livePool, Hu).
  assert (H1 : livePool (data s)) by (apply advanceAll_livePool; assumption).
  destruct H0 as [_ H0]. destruct H1 as [_ H1].
  specialize (H0 i Hi). specialize (H1 i Hi).
  split; [reflexivity |]. split.
  - intros s1 Hs1. rewrite resetParticle_particle by assumption. reflexivity.
  - repeat split; lra.
Qed.

Lemma C9_witness :
  let s0 := exec (initialize halfDraws) mounted in
  let s := exec (advanceAll halfDraws [(0.016, true); (1, false); (3, true)]) s0 in
  1.6 <= lifetime (particle (data s0) 0)
  /\ 1.6 <= lifetime (particle (data s) 0)
  /\ lifetime (particle (data s) 0) <> 0.
Proof.
  destruct (C9_lifetime_is_never_zero halfDraws
              [(0.016, true); (1, false); (3, true)] 0
              unitDraws_halfDraws mounted_index)
    as (_ & _ & H0 & H1 & _ & H2).
  cbv zeta. split; [exact H0 |]. split; [exact H1 | exact H2].
Defined.

(** ** Visibility *)

(** C8. The visibility update of [advance] is the reference damping
    [value += (target - value) * (1 - exp(-rate * deltaSeconds))], with
    target 0 and rate 5 when [isActive] is false, target 0.85 and rate 2.5
    when it is true. *)
Theorem C8_visibility_update_is_reference_damping env delta isActive s :
  attached s = true ->
  opacity (exec (advance env delta isActive) s)
  = dampReference (opacity s) (targetOf isActive) (rateOf isActive) delta.
Proof.
  intros Ha. rewrite advance_opacity by exact Ha. apply damp_dampReference.
Qed.

Lemma C8_witness :
  attached mounted = true /\
  opacity (exec (advance zeroDraws 1 true) mounted)
  = dampReference (opacity mounted) 0.85 2.5 1.
Proof.
  split; [reflexivity |].
  apply (C8_visibility_update_is_reference_damping zeroDraws 1 true mounted).
  reflexivity.
Defined.

(** C6. A call [advance delta false] with [0 <= delta], alone or after any
    run of such calls, multiplies the visibility by [exp (-5 * delta)], so
    a non-negative visibility decreases toward 0 and stays non-negative;
    the whole pool (positions, colors, ages, origins, velocities, base
    colors, lifetimes) and the random source are left as they were. *)
Theorem C6_inactive_frame env (deltas : list R) delta s :
  attached s = true -> Forall (fun d => 0 <= d) deltas -> 0 <= delta ->
  let before := exec (advanceAll env (map (fun d => (d, false)) deltas)) s in
  let after := exec (advance env delta false) before in
  data after = data s /\ drawn after = drawn s /\
  opacity after = dampReference (opacity before) 0 5 delta /\
  opacity after = opacity before * exp (- 5 * delta) /\
  (0 <= opacity s -> 0 <= opacity after <= opacity before /\ opacity before <= opacity s).
Proof.
  intros Ha Hds Hd before after.
  assert (Hrun : data before = data s /\ drawn before = drawn s /\
                 (0 <= opacity s -> 0 <= opacity before <= opacity s)).
  { subst before. clear after. revert s Ha.
    induction Hds as [| d ds Hd0 _ IH]; intros s Ha.
    - cbn [map advanceAll]. repeat split; try reflexivity; cbv [exec ret snd]; lra.
    - cbn [map]. rewrite advanceAll_cons.
      destruct (IH (exec (advance env d false) s)) as (IHd & IHk & IHo);
        [rewrite advance_attached; exact Ha |].
      destruct (advance_inactive_data env d s) as [Hdat Hdr].
      rewrite IHd, IHk, Hdat, Hdr. split; [reflexivity | split; [reflexivity |]].
      intros Hs.
      pose proof (advance_between env d false s Hd0) as Hb.
      revert Hb. unfold Rmin, Rmax, targetOf.
      repeat destruct (Rle_dec _ _); intros Hb; try lra;
        assert (0 <= opacity (exec (advance env d false) s)) as H0 by lra;
        specialize (IHo H0); lra. }
  destruct Hrun as (Hdat & Hdr & Hop).
  assert (Hab : attached before = true)
    by (subst before; rewrite advanceAll_attached; exact Ha).
  destruct (advance_inactive_data env delta before) as [Hdat' Hdr'].
  assert (Hval : opacity after = opacity before * exp (- 5 * delta)).
  { subst after. rewrite advance_opacity by exact Hab.
    unfold damp, lerp, targetOf, rateOf.
    replace (- 5 * delta) with (Ropp 5 * delta) by lra. ring. }
  subst after. split; [| split; [| split; [| split]]].
  - rewrite Hdat'. exact Hdat.
  - rewrite Hdr'. exact Hdr.
  - rewrite advance_opacity by exact Hab. apply damp_dampReference.
  - exact Hval.
  - intros Hs. specialize (Hop Hs). rewrite Hval.
    pose proof (exp_nonpos_bounds (- 5 * delta) ltac:(lra)). nra.
Qed.

Lemma C6_witness :
  let before := exec (advanceAll zeroDraws (map (fun d => (d, false)) [1; 0.5])) mounted in
  let after := exec (advance zeroDraws 2 false) before in
  data after = data mounted /\ drawn after = drawn mounted /\
  opacity after = dampReference (opacity before) 0 5 2 /\
  opacity after = opacity before * exp (- 5 * 2) /\
  (0 <= opacity mounted ->
   0 <= opacity after <= opacity before /\ opacity before <= opacity mounted).
Proof.
  apply (C6_inactive_frame zeroDraws [1; 0.5] 2 mounted).
  - reflexivity.
  - repeat constructor; lra.
  - lra.
Defined.




(** ** Initialization and the frame, draw by draw *)

Lemma initialize_spec env s :
  wellSized (data s) ->
  let s' := exec (initialize env) s in
  drawn s' = (drawn s + 10 * TOTAL_PARTICLES)%nat
  /\ wellSized (data s') /\ opacity s' = opacity s /\ attached s' = attached s
  /\ forall i : nat, (i < TOTAL_PARTICLES)%nat ->
       particle (data s') i = freshParticle env (drawn s + 10 * i).
Proof.
  intros Hs. unfold initialize.
  assert (H : forall n, (n <= TOTAL_PARTICLES)%nat ->
            let s' := exec (forRange 0 n (resetParticle env)) s in
            drawn s' = (drawn s + 10 * n)%nat
            /\ wellSized (data s') /\ opacity s' = opacity s
            /\ attached s' = attached s
            /\ forall i : nat, (i < n)%nat ->
                 particle (data s') i = freshParticle env (drawn s + 10 * i)).
  { induction n as [| n IH]; intros Hn.
    - cbv zeta. cbn [forRange]. cbv [exec ret snd].
      split; [lia |]. split; [exact Hs |]. split; [reflexivity |].
      split; [reflexivity |]. intros i Hi. lia.
    - cbv zeta. rewrite forRange_snoc. cbn [Nat.add].
      destruct IH as (Hd & Hw & Ho & Ha & Hp); [lia |].
      rewrite resetParticle_drawn, resetParticle_opacity, resetParticle_attached.
      split; [lia |]. split; [apply resetParticle_wellSized, Hw |].
      split; [exact Ho |]. split; [exact Ha |].
      intros i Hi. destruct (Nat.eq_dec n i) as [<- | Hne].
      + rewrite resetParticle_particle by (trivial; lia). rewrite Hd. reflexivity.
      + rewrite resetParticle_other by exact Hne. apply Hp. lia. }
  apply H. lia.
Qed.

(** X1. The initialization effect hands every particle its own ten draws, in
    index order: particle [i] is the particle reset at draw [10 * i], and
    ten draws a particle are consumed in all; the visibility is untouched
    and the arrays keep their sizes. *)
Theorem initialize_resets_each_particle_once env s :
  wellSized (data s) ->
  let s' := exec (initialize env) s in
  drawn s' = (drawn s + 10 * TOTAL_PARTICLES)%nat
  /\ wellSized (data s') /\ opacity s' = opacity s /\ attached s' = attached s
  /\ forall i : nat, (i < TOTAL_PARTICLES)%nat ->
       particle (data s') i = freshParticle env (drawn s + 10 * i).
Proof. exact (initialize_spec env s). Qed.

Lemma initialize_resets_each_particle_once_witness :
  let s' := exec (initialize halfDraws) mounted in
  drawn s' = (10 * TOTAL_PARTICLES)%nat
  /\ particle (data s') 7 = freshParticle halfDraws 70.
Proof.
  destruct (initialize_resets_each_particle_once halfDraws mounted emptyData_wellSized)
    as (Hd & _ & _ & _ & Hp).
  cbv zeta. split.
  - exact Hd.
  - apply (Hp 7%nat). rewrite TOTAL_PARTICLES_eq. lia.
Defined.

(** X2. [resetParticle index] writes the three cells of [index] only: every
    other particle keeps all seven attributes, the arrays keep their sizes,
    visibility and refs are untouched, and exactly ten draws are consumed. *)
Theorem resetParticle_leaves_the_others env s i j :
  i <> j ->
  let s' := exec (resetParticle env i) s in
  particle (data s') j = particle (data s) j
  /\ drawn s' = (drawn s + 10)%nat
  /\ opacity s' = opacity s /\ attached s' = attached s
  /\ (wellSized (data s) -> wellSized (data s')).
Proof.
  intros Hij. cbv zeta.
  rewrite resetParticle_other by exact Hij.
  rewrite resetParticle_drawn, resetParticle_opacity, resetParticle_attached.
  split; [reflexivity |]. split; [reflexivity |]. split; [reflexivity |].
  split; [reflexivity |]. apply resetParticle_wellSized.
Qed.

Lemma resetParticle_leaves_the_others_witness :
  let s' := exec (resetParticle zeroDraws 3) (poolAt 5 0) in
  particle (data s') 0 = particle (data (poolAt 5 0)) 0
  /\ drawn s' = 10%nat.
Proof.
  destruct (resetParticle_leaves_the_others zeroDraws (poolAt 5 0) 3 0 ltac:(lia))
    as (Hp & Hd & _).
  cbv zeta. split; [exact Hp | exact Hd].
Defined.

(** X3. An index past the pool is not an error: as stores past the end of a
    typed array are dropped, [resetParticle] then leaves the whole pool as
    it was, and still consumes its ten draws. *)
Theorem resetParticle_out_of_range env s i :
  wellSized (data s) -> (TOTAL_PARTICLES <= i)%nat ->
  data (exec (resetParticle env i) s) = data s
  /\ drawn (exec (resetParticle env i) s) = (drawn s + 10)%nat.
Proof.
  intros Hs Hi. split; [| apply resetParticle_drawn].
  revert Hs. open_state s. unfold wellSized, resetParticle. run.
  intros (Hp & Hv & Ho & Hb & Hc & Ha & Hl).
  rewrite !list_insert_ge by (rewrite ?length_insert; lia).
  reflexivity.
Qed.

Lemma resetParticle_out_of_range_witness :
  data (exec (resetParticle halfDraws 1000) mounted) = data mounted
  /\ drawn (exec (resetParticle halfDraws 1000) mounted) = 10%nat.
Proof.
  apply (resetParticle_out_of_range halfDraws mounted 1000).
  - exact emptyData_wellSized.
  - rewrite TOTAL_PARTICLES_eq. lia.
Defined.

(** *** Draw accounting *)

Lemma stepDraws_mustRecycle env delta p :
  stepDraws env delta p = if decide (mustRecycle env delta p) then 10%nat else 0%nat.
Proof.
  destruct (stepParticle_cases env delta p 0%nat)
    as [(Ha & _ & Hd) | [(Ha & Hg & _ & Hd) | (Ha & Hg & _ & Hd)]];
    rewrite Hd; unfold recycleGuard in *;
    destruct (decide (mustRecycle env delta p)) as [Hm | Hm];
    unfold mustRecycle in Hm; try reflexivity; exfalso; try tauto.
  destruct Hm. lra.
Qed.

Lemma recycledAmong_S env delta d n :
  recycledAmong env delta d (S n)
  = (recycledAmong env delta d n
     + if decide (mustRecycle env delta (particle d n)) then 1 else 0)%nat.
Proof.
  unfold recycledAmong. rewrite seq_S, filter_app, length_app. cbn [Nat.add].
  rewrite filter_cons, filter_nil.
  destruct (decide (mustRecycle env delta (particle d n))); reflexivity.
Qed.

Lemma loop_drawn env delta n s :
  (n <= TOTAL_PARTICLES)%nat -> wellSized (data s) ->
  drawn (exec (forRange 0 n (particleStep env delta)) s)
  = (drawn s + 10 * recycledAmong env delta (data s) n)%nat.
Proof.
  intros Hn Hs. induction n as [| n IH].
  - cbn [forRange]. cbv [exec ret snd]. unfold recycledAmong. cbn. lia.
  - rewrite forRange_snoc. cbn [Nat.add].
    rewrite particleStep_drawn by (try apply loop_wellSized; trivial; lia).
    rewrite loop_other by lia. rewrite IH by lia.
    rewrite stepDraws_mustRecycle, recycledAmong_S.
    destruct (decide (mustRecycle env delta (particle (data s) n))); lia.
Qed.

(** X4. An active frame consumes ten draws for each particle that passes the
    recycle test on the pool as the frame finds it, and no other; particle
    [i] is recycled exactly when it passes the test, and is then the
    particle reset at the draw index reached by the recycles before it. *)
Theorem advance_draws_ten_per_recycle env delta s :
  attached s = true -> wellSized (data s) ->
  let s' := exec (advance env delta true) s in
  drawn s' = (drawn s + 10 * recycledAmong env delta (data s) TOTAL_PARTICLES)%nat
  /\ forall i : nat, (i < TOTAL_PARTICLES)%nat ->
       (recycles env delta s i <-> mustRecycle env delta (particle (data s) i))
       /\ particle (data s') i
          = stepParticle env delta (particle (data s) i)
              (drawn s + 10 * recycledAmong env delta (data s) i).
Proof.
  intros Ha Hs. cbv zeta. split.
  - rewrite advance_active by exact Ha. rewrite loop_drawn by (trivial; lia).
    reflexivity.
  - intros i Hi. split.
    + rewrite recycles_guard by assumption. reflexivity.
    + rewrite advance_particle, reach_eq by assumption.
      rewrite loop_drawn by (trivial; lia). reflexivity.
Qed.

Lemma advance_draws_ten_per_recycle_witness :
  let s' := exec (advance zeroDraws 1 true) (poolAt 5 0) in
  drawn s'
  = (drawn (poolAt 5 0)
     + 10 * recycledAmong zeroDraws 1 (data (poolAt 5 0)) TOTAL_PARTICLES)%nat
  /\ ~ recycles zeroDraws 1 (poolAt 5 0) 0.
Proof.
  destruct (advance_draws_ten_per_recycle zeroDraws 1 (poolAt 5 0) eq_refl
              (poolAt_wellSized 5 0)) as [Hd Hp].
  cbv zeta. split; [exact Hd |].
  destruct (Hp 0%nat mounted_index) as [Hrec _]. rewrite Hrec.
  unfold mustRecycle. rewrite poolAt_particle.
  cbn [age lifetime currentPosition y baseOrigin zeroDraws]. lra.
Defined.

(** ** The pool after initialization *)

Section Settled.

Variable env : Env.
Hypothesis Hunit : unitDraws env.

(** The speed of a fresh particle: the drawn [speed] horizontally, up to
    1.2 times that vertically. *)
Lemma freshParticle_speed k :
  let v := velocity (freshParticle env k) in
  let speed := 1 + random env (k + 5) * 1.4 in
  1.0 <= speed < 2.4
  /\ speed ^ 2 <= x v ^ 2 + y v ^ 2 + z v ^ 2 <= (1.2 * speed) ^ 2
  /\ x v ^ 2 + z v ^ 2 <= speed ^ 2.
Proof.
  cbv zeta. unfold freshParticle. cbn [velocity x y z].
  pose proof (Hunit (k + 5)%nat) as H5.
  pose proof (sin2_cos2 (random env (k + 3) * PI * 2)) as Hth.
  pose proof (sin2_cos2 (acos (random env (k + 4) * 2 - 1) * 0.9)) as Hph.
  unfold Rsqr in Hth, Hph.
  generalize dependent (sin (acos (random env (k + 4) * 2 - 1) * 0.9)).
  generalize dependent (cos (acos (random env (k + 4) * 2 - 1) * 0.9)).
  generalize dependent (sin (random env (k + 3) * PI * 2)).
  generalize dependent (cos (random env (k + 3) * PI * 2)).
  assert (Hsp : 1.0 <= 1 + random env (k + 5) * 1.4 < 2.4) by lra.
  generalize dependent (1 + random env (k + 5) * 1.4).
  intros sp Hsp cth sth Hth cph sph Hph.
  assert (HB : 0 <= cph * cph <= 1) by nra.
  assert (HA : 0 <= sph * sph <= 1) by nra.
  assert (Hn : (sph * cth * sp) ^ 2 + (cph * (sp * 1.2)) ^ 2 + (sph * sth * sp) ^ 2
               = sp * sp * (1 + 0.44 * (cph * cph))).
  { replace 1.2 with (6 / 5) by lra. replace 0.44 with (11 / 25) by lra.
    replace ((sph * cth * sp) ^ 2 + (cph * (sp * (6 / 5))) ^ 2 + (sph * sth * sp) ^ 2)
      with (sp * sp * (sph * sph * (sth * sth + cth * cth) + 36 / 25 * (cph * cph)))
      by field.
    rewrite Hth. replace (sph * sph) with (1 - cph * cph) by lra. field. }
  assert (Hh : (sph * cth * sp) ^ 2 + (sph * sth * sp) ^ 2 = sp * sp * (sph * sph)).
  { replace ((sph * cth * sp) ^ 2 + (sph * sth * sp) ^ 2)
      with (sp * sp * (sph * sph * (sth * sth + cth * cth))) by ring.
    rewrite Hth. ring. }
  assert (Hsq : 1 <= sp * sp) by nra.
  split; [exact Hsp |]. split.
  - rewrite Hn. split; nra.
  - rewrite Hh. nra.
Qed.

Lemma freshParticle_inFlight k : inFlight env (freshParticle env k).
Proof.
  destruct (freshParticle_speed k) as (Hsp & Hnorm & _).
  assert (Hsq : 1 <= (1 + random env (k + 5) * 1.4) ^ 2
                /\ (1.2 * (1 + random env (k + 5) * 1.4)) ^ 2 < 2.88 ^ 2) by nra.
  revert Hnorm. unfold inFlight, freshParticle, trajectory, add.
  cbn [lifetime age currentPosition currentColor origin velocity baseColor x y z].
  intros Hnorm.
  pose proof (Hunit k) as H0. pose proof (Hunit (k + 1)%nat) as H1.
  pose proof (Hunit (k + 2)%nat) as H2. pose proof (Hunit (k + 8)%nat) as H8.
  pose proof (Hunit (k + 9)%nat) as H9.
  assert (Hmax : Rmax 0 (- random env (k + 9) * 1.2) = 0)
    by (apply Rmax_left; lra).
  split; [lra |]. split; [lra |]. split.
  { rewrite Hmax. f_equal; ring. }
  split.
  { exists 0. split; [lra |]. unfold scale, black. f_equal; ring. }
  split; [reflexivity |]. split; [lra |]. lra.
Qed.

Lemma stepParticle_inFlight delta p k :
  0 <= delta -> inFlight env p -> inFlight env (stepParticle env delta p k).
Proof.
  intros Hd (Hl & Ha & Hpos & Hcol & Hblk & Hbox & Hv).
  destruct (stepParticle_cases env delta p k)
    as [(Hneg & H & _) | [(_ & _ & H & _) | (Hpos' & Hg & H & _)]]; rewrite H.
  - unfold inFlight, held, trajectory.
    cbn [lifetime age currentPosition currentColor origin velocity baseColor].
    assert (Hmax : Rmax 0 (age p + delta) = 0) by (apply Rmax_left; lra).
    split; [exact Hl |]. split; [lra |]. split.
    { rewrite Hmax. destruct (origin p). cbn [x y z]. f_equal; ring. }
    split.
    { exists 0. split; [lra |]. unfold scale, black. f_equal; ring. }
    split; [reflexivity |]. split; [exact Hbox | exact Hv].
  - apply freshParticle_inFlight.
  - unfold recycleGuard in Hg.
    assert (Hle : age p + delta <= lifetime p) by lra.
    unfold inFlight, integrated, trajectory.
    cbn [lifetime age currentPosition currentColor origin velocity baseColor].
    assert (Hmax : Rmax 0 (age p + delta) = age p + delta)
      by (apply Rmax_right; lra).
    split; [exact Hl |]. split; [lra |]. split; [rewrite Hmax; reflexivity |].
    split.
    { exists (Rmax 0 (1 - (age p + delta) / lifetime p)). split; [| reflexivity].
      assert (Hq : 0 <= (age p + delta) / lifetime p <= 1).
      { assert (Hinv : 0 < / lifetime p) by (apply Rinv_0_lt_compat; lra).
        assert (Hone : lifetime p * / lifetime p = 1) by (apply Rinv_r; lra).
        unfold Rdiv. split; nra. }
      unfold Rmax. destruct (Rle_dec _ _); lra. }
    split; [intros Hlt; lra |]. split; [exact Hbox | exact Hv].
Qed.

Lemma particleStep_settled delta i s :
  0 <= delta -> (i < TOTAL_PARTICLES)%nat -> settled env (data s) ->
  settled env (data (exec (particleStep env delta i) s)).
Proof.
  intros Hd Hi [Hs Hp]. split; [apply particleStep_wellSized, Hs |].
  intros j Hj. destruct (Nat.eq_dec i j) as [<- | Hne].
  - rewrite particleStep_particle by assumption.
    apply stepParticle_inFlight; [exact Hd | apply Hp, Hi].
  - rewrite particleStep_other by exact Hne. apply Hp, Hj.
Qed.

Lemma advance_settled delta isActive s :
  0 <= delta -> settled env (data s) ->
  settled env (data (exec (advance env delta isActive) s)).
Proof.
  intros Hd Hl. destruct (attached s) eqn:Ha;
    [| rewrite advance_detached by exact Ha; exact Hl].
  destruct isActive.
  - rewrite advance_active by exact Ha.
    apply (forRange_invariant (fun s' => settled env (data s'))); [| exact Hl].
    intros j s' Hj. apply particleStep_settled; [exact Hd | lia].
  - destruct (advance_inactive_data env delta s) as [-> _]. exact Hl.
Qed.

Lemma advanceAll_settled frames s :
  Forall (fun f : R * bool => 0 <= fst f) frames -> settled env (data s) ->
  settled env (data (exec (advanceAll env frames) s)).
Proof.
  intros Hf. revert s. induction Hf as [| [delta a] frames Hd _ IH]; intros s Hs.
  - exact Hs.
  - rewrite advanceAll_cons. apply IH, advance_settled; assumption.
Qed.

Lemma initialize_settled s :
  wellSized (data s) -> settled env (data (exec (initialize env) s)).
Proof.
  intros Hs.
  destruct (initialize_spec env s Hs) as (_ & Hw & _ & _ & Hp).
  split; [exact Hw |]. intros i Hi. rewrite Hp by exact Hi.
  apply freshParticle_inFlight.
Qed.

Lemma reachable_settled frames :
  Forall (fun f : R * bool => 0 <= fst f) frames ->
  settled env (data (exec (advanceAll env frames) (exec (initialize env) mounted))).
Proof.
  intros Hf. apply advanceAll_settled; [exact Hf |].
  apply initialize_settled, emptyData_wellSized.
Qed.

End Settled.

(** X5. In every state reached from the initialized pool by frames with
    non-negative deltas, active or not, each particle has an age of at
    most its lifetime, and its stored position is the point of its
    parabola at time [max(0, age)]: the origin while it waits, the
    integrated point afterwards.  Age and lifetime stay in
    [[-1.2000001, 2.9000001]], the ranges of [resetParticle] widened by
    the rounding of a [Float32Array] store. *)
Theorem reachable_particles_sit_on_their_parabola env (frames : list (R * bool)) i :
  unitDraws env -> Forall (fun f : R * bool => 0 <= fst f) frames ->
  (i < TOTAL_PARTICLES)%nat ->
  let p := particle (data (exec (advanceAll env frames)
                             (exec (initialize env) mounted))) i in
  -1.2000001 <= age p <= lifetime p /\ lifetime p <= 2.9000001
  /\ currentPosition p = trajectory p (Rmax 0 (age p)).
Proof.
  intros Hu Hf Hi. cbv zeta.
  destruct (reachable_settled env Hu frames Hf) as [_ H].
  destruct (H i Hi) as (Hl & Ha & Hpos & _).
  split; [lra |]. split; [lra | exact Hpos].
Qed.

Lemma reachable_particles_sit_on_their_parabola_witness :
  let p := particle (data (exec (advanceAll halfDraws [(0.016, true); (1, false)])
                             (exec (initialize halfDraws) mounted))) 0 in
  -1.2000001 <= age p <= lifetime p /\ lifetime p <= 2.9000001
  /\ currentPosition p = trajectory p (Rmax 0 (age p)).
Proof.
  apply (reachable_particles_sit_on_their_parabola halfDraws
           [(0.016, true); (1, false)] 0).
  - exact unitDraws_halfDraws.
  - repeat constructor; cbn [fst]; lra.
  - exact mounted_index.
Defined.

(** X6. In every state reached from the initialized pool by frames with
    non-negative deltas, the current color of a particle is its base color
    times a factor in [[0, 1]], and black while its age is negative: no
    channel is ever brighter than the base color's. *)
Theorem reachable_colors_are_dimmed_base_colors env (frames : list (R * bool)) i :
  unitDraws env -> Forall (fun f : R * bool => 0 <= fst f) frames ->
  (i < TOTAL_PARTICLES)%nat ->
  let p := particle (data (exec (advanceAll env frames)
                             (exec (initialize env) mounted))) i in
  (exists f, 0 <= f <= 1 /\ currentColor p = scale (baseColor p) f)
  /\ (age p < 0 -> currentColor p = black).
Proof.
  intros Hu Hf Hi. cbv zeta.
  destruct (reachable_settled env Hu frames Hf) as [_ H].
  destruct (H i Hi) as (_ & _ & _ & Hc & Hb & _). split; [exact Hc | exact Hb].
Qed.

Lemma reachable_colors_are_dimmed_base_colors_witness :
  let p := particle (data (exec (advanceAll halfDraws [(0.016, true); (1, false)])
                             (exec (initialize halfDraws) mounted))) 0 in
  (exists f, 0 <= f <= 1 /\ currentColor p = scale (baseColor p) f)
  /\ (age p < 0 -> currentColor p = black).
Proof.
  apply (reachable_colors_are_dimmed_base_colors halfDraws
           [(0.016, true); (1, false)] 0).
  - exact unitDraws_halfDraws.
  - repeat constructor; cbn [fst]; lra.
  - exact mounted_index.
Defined.

(** X8. The velocity written by [resetParticle] decomposes on the drawn
    speed [1 + r * 1.4] and polar angle [phi]: its horizontal part has
    length [speed * |sin phi|], its vertical part is [1.2 * speed * cos phi]
    (the factor 1.2 of line 81 stretches the vertical component only), so
    its squared norm is [speed^2 * (1 + 0.44 * cos^2 phi)], between 0.99
    and 8.3 for draws in [[0, 1)]. *)
Theorem resetParticle_speed_decomposition env s i :
  unitDraws env -> wellSized (data s) -> (i < TOTAL_PARTICLES)%nat ->
  let v := velocity (particle (data (exec (resetParticle env i) s)) i) in
  let speed := 1 + random env (drawn s + 5) * 1.4 in
  let phi := acos (random env (drawn s + 4) * 2 - 1) * 0.9 in
  x v ^ 2 + z v ^ 2 = (speed * sin phi) ^ 2
  /\ y v = 1.2 * speed * cos phi
  /\ x v ^ 2 + y v ^ 2 + z v ^ 2 = speed ^ 2 * (1 + 0.44 * cos phi ^ 2)
  /\ 0.99 <= x v ^ 2 + y v ^ 2 + z v ^ 2 <= 8.3.
Proof.
  intros Hu Hs Hi. cbv zeta.
  destruct (freshParticle_speed env Hu (drawn s)) as (Hsp & Hnorm & _).
  revert Hnorm. rewrite resetParticle_particle by assumption.
  unfold freshParticle. cbn [velocity x y z].
  pose proof (sin2_cos2 (random env (drawn s + 3) * PI * 2)) as Hth.
  pose proof (sin2_cos2 (acos (random env (drawn s + 4) * 2 - 1) * 0.9)) as Hph.
  unfold Rsqr in Hth, Hph.
  generalize dependent (sin (acos (random env (drawn s + 4) * 2 - 1) * 0.9)).
  generalize dependent (cos (acos (random env (drawn s + 4) * 2 - 1) * 0.9)).
  generalize dependent (sin (random env (drawn s + 3) * PI * 2)).
  generalize dependent (cos (random env (drawn s + 3) * PI * 2)).
  generalize dependent (1 + random env (drawn s + 5) * 1.4).
  intros sp Hsp cth sth Hth cph sph Hph Hnorm.
  replace 1.2 with (6 / 5) in * by lra. replace 0.44 with (11 / 25) by lra.
  assert (H1 : (sph * cth * sp) ^ 2 + (sph * sth * sp) ^ 2 = (sp * sph) ^ 2).
  { replace ((sph * cth * sp) ^ 2 + (sph * sth * sp) ^ 2)
      with (sp * sp * (sph * sph * (sth * sth + cth * cth))) by ring.
    rewrite Hth. ring. }
  assert (H3 : (sph * cth * sp) ^ 2 + (cph * (sp * (6 / 5))) ^ 2 + (sph * sth * sp) ^ 2
               = sp ^ 2 * (1 + 11 / 25 * cph ^ 2)).
  { replace ((sph * cth * sp) ^ 2 + (cph * (sp * (6 / 5))) ^ 2 + (sph * sth * sp) ^ 2)
      with (sp * sp * (sph * sph * (sth * sth + cth * cth) + 36 / 25 * (cph * cph)))
      by field.
    rewrite Hth. replace (sph * sph) with (1 - cph * cph) by lra. field. }
  split; [exact H1 |]. split; [field |]. split; [exact H3 |].
  assert (Hsq : 1 <= sp ^ 2 /\ (6 / 5 * sp) ^ 2 < 8.3) by nra.
  lra.
Qed.

Lemma resetParticle_speed_decomposition_witness :
  let v := velocity (particle (data (exec (resetParticle halfDraws 0) mounted)) 0) in
  0.99 <= x v ^ 2 + y v ^ 2 + z v ^ 2 <= 8.3.
Proof.
  destruct (resetParticle_speed_decomposition halfDraws mounted 0 unitDraws_halfDraws
              emptyData_wellSized mounted_index) as (_ & _ & _ & H).
  exact H.
Defined.

(** X9. A particle just reset is not recycled by the next frame unless that
    frame is longer than 1.6 seconds: its height is at least the anchor's,
    above the floor, and its age is at most 0. *)
Theorem reset_particle_survives_the_next_frame env s i delta :
  unitDraws env -> wellSized (data s) -> (i < TOTAL_PARTICLES)%nat ->
  delta <= 1.6 ->
  ~ recycles env delta (exec (resetParticle env i) s) i.
Proof.
  intros Hu Hs Hi Hd.
  rewrite recycles_guard by (try apply resetParticle_wellSized; assumption).
  rewrite resetParticle_particle by assumption.
  unfold recycleGuard, freshParticle, add.
  cbn [age lifetime currentPosition x y z].
  pose proof (Hu (drawn s + 1)%nat) as H1. pose proof (Hu (drawn s + 8)%nat) as H8.
  pose proof (Hu (drawn s + 9)%nat) as H9.
  intros [Ha [Hg | Hg]]; lra.
Qed.

Lemma reset_particle_survives_the_next_frame_witness :
  ~ recycles halfDraws 1.5 (exec (resetParticle halfDraws 0) mounted) 0.
Proof.
  apply (reset_particle_survives_the_next_frame halfDraws mounted 0 1.5).
  - exact unitDraws_halfDraws.
  - exact emptyData_wellSized.
  - exact mounted_index.
  - lra.
Defined.

(** X10. For a particle with a positive lifetime that a frame integrates, the
    clamp [max(0, .)] of line 156 never acts: the guard of line 142 has
    already bounded the age by the lifetime, so the fade is
    [1 - age / lifetime], in [[0, 1]]. *)
Theorem fade_is_never_clamped env delta s i :
  attached s = true -> wellSized (data s) -> (i < TOTAL_PARTICLES)%nat ->
  let p := particle (data s) i in
  let a := age p + delta in
  let p' := particle (data (exec (advance env delta true) s)) i in
  0 < lifetime p -> 0 <= a -> ~ recycles env delta s i ->
  currentColor p' = scale (baseColor p) (1 - a / lifetime p)
  /\ 0 <= 1 - a / lifetime p <= 1.
Proof.
  intros Hatt Hs Hi p a p' Hl Ha Hno.
  assert (Hg : ~ recycleGuard env p a).
  { intros Hg. apply Hno. apply recycles_guard; [exact Hi | exact Hs |].
    split; [exact Ha | exact Hg]. }
  destruct (advance_integrates env delta s i Hatt Hs Hi Ha Hg) as [Hp' _].
  unfold recycleGuard in Hg. fold p in Hg.
  assert (Hq : 0 <= a / lifetime p <= 1).
  { assert (Hinv : 0 < / lifetime p) by (apply Rinv_0_lt_compat; lra).
    assert (Hone : lifetime p * / lifetime p = 1) by (apply Rinv_r; lra).
    assert (Hle : a <= lifetime p) by lra.
    unfold Rdiv. split; nra. }
  split; [| lra].
  subst p'. rewrite Hp'. cbn [integrated currentColor]. fold p a.
  rewrite Rmax_right by lra. reflexivity.
Qed.

Lemma fade_is_never_clamped_witness :
  let p := particle (data (poolAt 10 2)) 0 in
  let p' := particle (data (exec (advance zeroDraws 1 true) (poolAt 10 2))) 0 in
  currentColor p' = scale (baseColor p) (1 - (age p + 1) / lifetime p)
  /\ 0 <= 1 - (age p + 1) / lifetime p <= 1.
Proof.
  apply (fade_is_never_clamped zeroDraws 1 (poolAt 10 2) 0).
  - reflexivity.
  - apply poolAt_wellSized.
  - exact mounted_index.
  - rewrite poolAt_particle. cbn [lifetime]. lra.
  - rewrite poolAt_particle. cbn [age]. lra.
  - intros Hrec. apply recycles_guard in Hrec;
      [| exact mounted_index | apply poolAt_wellSized].
    revert Hrec. rewrite poolAt_particle. unfold recycleGuard.
    cbn [age lifetime currentPosition y baseOrigin zeroDraws]. lra.
Defined.

(** ** Frames in sequence *)

(** X11. The visibility does not depend on how the time is cut into frames: two
    frames of [d1] and [d2] seconds with the same [isActive] leave the
    visibility that one frame of [d1 + d2] seconds leaves. *)
Theorem visibility_is_frame_rate_independent env d1 d2 isActive s :
  opacity (exec (advance env d2 isActive) (exec (advance env d1 isActive) s))
  = opacity (exec (advance env (d1 + d2) isActive) s).
Proof.
  destruct (attached s) eqn:Ha.
  - rewrite (advance_opacity env d2) by (rewrite advance_attached; exact Ha).
    rewrite !advance_opacity by exact Ha.
    unfold damp, lerp.
    replace (- rateOf isActive * (d1 + d2))
      with (- rateOf isActive * d1 + - rateOf isActive * d2) by ring.
    rewrite exp_plus. ring.
  - rewrite !advance_detached by (rewrite ?advance_detached; exact Ha).
    reflexivity.
Qed.

(** X12. While a ref is unattached (line 112) no run of frames changes
    anything: not the pool, not the visibility, not the random source. *)
Theorem frames_before_mount_change_nothing env (frames : list (R * bool)) s :
  attached s = false -> exec (advanceAll env frames) s = s.
Proof.
  intros Ha. induction frames as [| [delta isActive] frames IH].
  - reflexivity.
  - rewrite advanceAll_cons, advance_detached by exact Ha. exact IH.
Qed.

Lemma frames_before_mount_change_nothing_witness :
  exec (advanceAll zeroDraws [(1, true); (2, false)])
       (mkSim false 0.5 emptyData 3)
  = mkSim false 0.5 emptyData 3.
Proof.
  apply (frames_before_mount_change_nothing zeroDraws [(1, true); (2, false)]).
  reflexivity.
Defined.

Lemma advanceAll_wellSized env (frames : list (R * bool)) s :
  wellSized (data s) -> wellSized (data (exec (advanceAll env frames) s)).
Proof.
  revert s. induction frames as [| [delta isActive] frames IH]; intros s Hs.
  - exact Hs.
  - rewrite advanceAll_cons. apply IH, advance_wellSized, Hs.
Qed.

(** X13. The pool never grows or shrinks: after initialization and any run of
    frames, whatever the deltas and whatever [Math.random] returns, the
    five vector arrays still hold [3 * 1000] cells and the two scalar
    arrays 1000. *)
Theorem pool_size_never_changes env (frames : list (R * bool)) s :
  wellSized (data s) ->
  let d := data (exec (advanceAll env frames) (exec (initialize env) s)) in
  length (positions d) = 3000%nat /\ length (velocities d) = 3000%nat
  /\ length (origins d) = 3000%nat /\ length (baseColors d) = 3000%nat
  /\ length (colors d) = 3000%nat
  /\ length (ages d) = 1000%nat /\ length (lifetimes d) = 1000%nat.
Proof.
  intros Hs d.
  assert (Hd : wellSized d).
  { subst d. apply advanceAll_wellSized.
    destruct (initialize_spec env s Hs) as (_ & Hw & _). exact Hw. }
  unfold wellSized in Hd. rewrite TOTAL_PARTICLES_eq in Hd. exact Hd.
Qed.

Lemma pool_size_never_changes_witness :
  let d := data (exec (advanceAll zeroDraws [(1, true); (-2, true); (0.5, false)])
                   (exec (initialize zeroDraws) mounted)) in
  length (positions d) = 3000%nat /\ length (ages d) = 1000%nat.
Proof.
  destruct (pool_size_never_changes zeroDraws [(1, true); (-2, true); (0.5, false)]
              mounted emptyData_wellSized) as (Hp & _ & _ & _ & _ & Ha & _).
  cbv zeta. split; [exact Hp | exact Ha].
Defined.

Lemma advance_not_recycled env delta s i :
  attached s = true -> wellSized (data s) -> (i < TOTAL_PARTICLES)%nat ->
  ~ recycles env delta s i ->
  age (particle (data (exec (advance env delta true) s)) i)
  = age (particle (data s) i) + delta
  /\ lifetime (particle (data (exec (advance env delta true) s)) i)
     = lifetime (particle (data s) i).
Proof.
  intros Hatt Hs Hi Hno.
  destruct (Rlt_dec (age (particle (data s) i) + delta) 0) as [Hneg | Hpos].
  - destruct (advance_holds env delta s i Hatt Hs Hi Hneg) as [-> _].
    split; reflexivity.
  - assert (Ha : 0 <= age (particle (data s) i) + delta) by lra.
    assert (Hg : ~ recycleGuard env (particle (data s) i)
                     (age (particle (data s) i) + delta)).
    { intros Hg. apply Hno. apply recycles_guard; [exact Hi | exact Hs |].
      split; assumption. }
    destruct (advance_integrates env delta s i Hatt Hs Hi Ha Hg) as [-> _].
    split; reflexivity.
Qed.

(** Along a run, a particle is recycled or its age grows by the active
    time of the run, its lifetime unchanged. *)
Lemma run_recycles_or_ages env (frames : list (R * bool)) i :
  (i < TOTAL_PARTICLES)%nat ->
  forall s, attached s = true -> wellSized (data s) ->
  recycledDuring env frames s i
  \/ (age (particle (data (exec (advanceAll env frames) s)) i)
      = age (particle (data s) i) + activeTime frames
      /\ lifetime (particle (data (exec (advanceAll env frames) s)) i)
         = lifetime (particle (data s) i)).
Proof.
  intros Hi. induction frames as [| [delta isActive] frames IH]; intros s Hatt Hs.
  - right. cbn [advanceAll activeTime]. cbv [exec ret snd]. split; [lra | reflexivity].
  - cbn [recycledDuring activeTime]. rewrite advanceAll_cons.
    assert (Hatt' : attached (exec (advance env delta isActive) s) = true)
      by (rewrite advance_attached; exact Hatt).
    assert (Hs' : wellSized (data (exec (advance env delta isActive) s)))
      by (apply advance_wellSized, Hs).
    destruct isActive.
    + destruct (Nat.eq_dec
                  (drawn (exec (particleStep env delta i) (exec (reach env delta i) s)))
                  (drawn (exec (reach env delta i) s))) as [Heq | Hne].
      * assert (Hno : ~ recycles env delta s i) by (intros H; apply H, Heq).
        destruct (advance_not_recycled env delta s i Hatt Hs Hi Hno) as [Hage Hlife].
        destruct (IH _ Hatt' Hs') as [Hrec | [Ha Hl]].
        -- left. right. exact Hrec.
        -- right. rewrite Ha, Hl, Hage, Hlife. split; [lra | reflexivity].
      * left. left. split; [reflexivity | exact Hne].
    + destruct (advance_inactive_data env delta s) as [Hdat _].
      destruct (IH _ Hatt' Hs') as [Hrec | [Ha Hl]].
      * left. right. exact Hrec.
      * right. rewrite Ha, Hl, Hdat. split; [lra | reflexivity].
Qed.

(** X14. No particle lives through 4.2 seconds of active frames: from any
    state reached after initialization, a run of frames of at least a
    millisecond each whose active frames add up to at least 4.2 seconds
    recycles every particle at least once.  The longest delay is 1.2 and
    the longest lifetime 2.9; the bound on the frames keeps each increment
    of an age far above the spacing of the [Float32Array] cells, and the
    tenth of a second beyond 4.1 covers their rounding. *)
Theorem every_particle_is_recycled_within_4_2_active_seconds
    env (before frames : list (R * bool)) i :
  unitDraws env ->
  Forall (fun f : R * bool => 0 <= fst f) before ->
  Forall (fun f : R * bool => 0.001 <= fst f) frames ->
  (i < TOTAL_PARTICLES)%nat ->
  4.2 <= activeTime frames ->
  recycledDuring env frames
    (exec (advanceAll env before) (exec (initialize env) mounted)) i.
Proof.
  intros Hu Hb Hms Hi Ht.
  assert (Hf : Forall (fun f : R * bool => 0 <= fst f) frames).
  { eapply Forall_impl; [exact Hms |]. intros f Hf. cbv beta in Hf. lra. }
  set (s0 := exec (advanceAll env before) (exec (initialize env) mounted)).
  assert (Hset : settled env (data s0)) by (apply reachable_settled; assumption).
  assert (Hatt : attached s0 = true).
  { subst s0. rewrite advanceAll_attached.
    destruct (initialize_spec env mounted emptyData_wellSized) as (_ & _ & _ & -> & _).
    reflexivity. }
  destruct (run_recycles_or_ages env frames i Hi s0 Hatt (proj1 Hset))
    as [Hrec | [Ha Hl]]; [exact Hrec | exfalso].
  assert (Hend : settled env (data (exec (advanceAll env frames) s0)))
    by (apply advanceAll_settled; assumption).
  destruct Hset as [_ H0]. destruct Hend as [_ H1].
  destruct (H0 i Hi) as (Hl0 & Ha0 & _). destruct (H1 i Hi) as (Hl1 & Ha1 & _).
  lra.
Qed.

Lemma every_particle_is_recycled_within_4_2_active_seconds_witness :
  recycledDuring halfDraws [(2, true); (1, false); (2.2, true)]
    (exec (advanceAll halfDraws [(0.016, true)]) (exec (initialize halfDraws) mounted)) 0.
Proof.
  apply (every_particle_is_recycled_within_4_2_active_seconds halfDraws
           [(0.016, true)] [(2, true); (1, false); (2.2, true)] 0).
  - exact unitDraws_halfDraws.
  - repeat constructor; cbn [fst]; lra.
  - repeat constructor; cbn [fst]; lra.
  - exact mounted_index.
  - cbn [activeTime]. lra.
Defined.

(** ** BirthdayCard: the card's motion *)

Section CardMotion.

Variable slerp : BirthdayCard.Quaternion -> BirthdayCard.Quaternion -> R
                 -> BirthdayCard.Quaternion.
Variable camera : BirthdayCard.Camera.
Variable props : BirthdayCard.Props.

Lemma card_frame_attached delta c g :
  BirthdayCard.group c = Some g ->
  BirthdayCard.positionOf (BirthdayCard.frame slerp camera props delta c)
  = Some (BirthdayCard.lerpTo (BirthdayCard.position g)
            (BirthdayCard.positionTarget camera props (BirthdayCard.isHovered c))
            (1 - exp (- delta * 12)))
  /\ BirthdayCard.isHovered (BirthdayCard.frame slerp camera props delta c)
     = BirthdayCard.isHovered c.
Proof.
  intros Hg. unfold BirthdayCard.frame, BirthdayCard.positionOf. rewrite Hg.
  split; reflexivity.
Qed.

Lemma card_frame_detached delta c :
  BirthdayCard.group c = None -> BirthdayCard.frame slerp camera props delta c = c.
Proof. intros Hg. unfold BirthdayCard.frame. rewrite Hg. reflexivity. Qed.

Lemma card_alpha_range delta : 0 <= delta -> 0 <= 1 - exp (- delta * 12) < 1.
Proof.
  intros Hd. pose proof (exp_nonpos_bounds (- delta * 12) ltac:(lra)). lra.
Qed.

End CardMotion.

(** X15. While the card is active its target is the point 1.2 in front of
    the camera, 0.05 lower, with its height raised to [CAMERA_Y_FLOOR] when
    it would be below: the clamp of lines 104-106 acts on the height
    alone, so the target is never below the floor; and hovering plays no
    part in it. *)
Theorem active_card_target_is_clamped_at_the_floor camera props hovered :
  BirthdayCard.isActive props = true ->
  let target := BirthdayCard.positionTarget camera props hovered in
  let aimed := y (BirthdayCard.cameraPosition camera)
               + y (BirthdayCard.worldDirection camera) * BirthdayCard.CAMERA_DISTANCE
               + -0.05 in
  y target = Rmax BirthdayCard.CAMERA_Y_FLOOR aimed
  /\ BirthdayCard.CAMERA_Y_FLOOR <= y target
  /\ x target = x (BirthdayCard.cameraPosition camera)
                + x (BirthdayCard.worldDirection camera) * BirthdayCard.CAMERA_DISTANCE
  /\ z target = z (BirthdayCard.cameraPosition camera)
                + z (BirthdayCard.worldDirection camera) * BirthdayCard.CAMERA_DISTANCE
  /\ target = BirthdayCard.positionTarget camera props (negb hovered).
Proof.
  intros Hact target aimed. subst target aimed.
  unfold BirthdayCard.positionTarget. rewrite Hact. cbv zeta.
  unfold add, BirthdayCard.multiplyScalar, BirthdayCard.cameraOffset.
  cbn [x y z]. unfold Rmax.
  unfold BirthdayCard.CAMERA_Y_FLOOR, BirthdayCard.CAMERA_DISTANCE.
  destruct (decide (_ < _)) as [Hlow | Hhigh]; destruct (Rle_dec _ _);
    cbn [x y z];
    (split; [lra |]; split; [lra |]; split; [lra |]; split; [lra | reflexivity]).
Qed.

Lemma active_card_target_is_clamped_at_the_floor_witness :
  let camera := BirthdayCard.mkCamera (mkVector3 0 1 3) (mkVector3 0 (-1) 0)
                  (BirthdayCard.mkQuaternion 0 0 0 1) in
  let props := BirthdayCard.mkProps (mkVector3 0 0.9 0)
                 (BirthdayCard.mkQuaternion 0 0 0 1) true in
  y (BirthdayCard.positionTarget camera props false) = BirthdayCard.CAMERA_Y_FLOOR.
Proof.
  intros camera props.
  destruct (active_card_target_is_clamped_at_the_floor camera props false eq_refl)
    as (Hy & _).
  rewrite Hy. subst camera props.
  unfold BirthdayCard.CAMERA_Y_FLOOR, BirthdayCard.CAMERA_DISTANCE.
  cbn [x y z BirthdayCard.cameraPosition BirthdayCard.worldDirection].
  apply Rmax_left. lra.
Defined.



(** X17. The card's motion does not depend on how the time is cut into frames:
    under one camera pose and one set of props, two frames of [d1] and
    [d2] seconds leave the card where one frame of [d1 + d2] seconds does. *)
Theorem card_motion_is_frame_rate_independent slerp camera props d1 d2 c :
  BirthdayCard.positionOf
    (BirthdayCard.frame slerp camera props d2 (BirthdayCard.frame slerp camera props d1 c))
  = BirthdayCard.positionOf (BirthdayCard.frame slerp camera props (d1 + d2) c).
Proof.
  destruct (BirthdayCard.group c) as [g |] eqn:Hg.
  - destruct (card_frame_attached slerp camera props d1 c g Hg) as [Hp1 Hh1].
    destruct (card_frame_attached slerp camera props (d1 + d2) c g Hg) as [-> _].
    unfold BirthdayCard.positionOf in Hp1.
    destruct (BirthdayCard.group (BirthdayCard.frame slerp camera props d1 c))
      as [g1 |] eqn:Hg1; [| discriminate].
    injection Hp1 as Hp1.
    destruct (card_frame_attached slerp camera props d2 _ g1 Hg1) as [-> _].
    rewrite Hh1, Hp1. f_equal.
    replace (- (d1 + d2) * 12) with (- d1 * 12 + - d2 * 12) by ring.
    rewrite exp_plus. unfold BirthdayCard.lerpTo. cbn [x y z]. f_equal; ring.
  - rewrite !card_frame_detached by (rewrite ?card_frame_detached; exact Hg).
    reflexivity.
Qed.

(** X18. Once the placing effect has put it on the table, a card that is neither
    active nor hovered does not move, whatever the deltas of the frames. *)
Theorem resting_card_stays_put slerp camera props (deltas : list R) c g :
  BirthdayCard.isActive props = false -> BirthdayCard.isHovered c = false ->
  BirthdayCard.group c = Some g ->
  BirthdayCard.positionOf
    (BirthdayCard.frames slerp camera props deltas (BirthdayCard.placeEffect props c))
  = Some (BirthdayCard.defaultPosition props).
Proof.
  intros Hact Hhov Hg.
  assert (H0 : BirthdayCard.positionOf (BirthdayCard.placeEffect props c)
               = Some (BirthdayCard.defaultPosition props)
               /\ BirthdayCard.isHovered (BirthdayCard.placeEffect props c) = false).
  { unfold BirthdayCard.placeEffect, BirthdayCard.positionOf. rewrite Hg.
    split; [reflexivity | exact Hhov]. }
  generalize dependent (BirthdayCard.placeEffect props c). clear c g Hhov Hg.
  induction deltas as [| d deltas IH]; intros c [Hp Hh].
  - exact Hp.
  - unfold BirthdayCard.frames. cbn [fold_left]. apply IH.
    unfold BirthdayCard.positionOf in Hp.
    destruct (BirthdayCard.group c) as [g |] eqn:Hg; [| discriminate].
    injection Hp as Hp.
    destruct (card_frame_attached slerp camera props d c g Hg) as [-> ->].
    split; [| exact Hh]. f_equal.
    unfold BirthdayCard.positionTarget. rewrite Hact, Hh, Hp.
    unfold BirthdayCard.lerpTo. destruct (BirthdayCard.defaultPosition props).
    cbn [x y z]. f_equal; ring.
Qed.

Lemma resting_card_stays_put_witness :
  let props := BirthdayCard.mkProps (mkVector3 1 0.9 0)
                 (BirthdayCard.mkQuaternion 0 0 0 1) false in
  let camera := BirthdayCard.mkCamera (mkVector3 0 1 3) (mkVector3 0 0 (-1))
                  (BirthdayCard.mkQuaternion 0 0 0 1) in
  let c := BirthdayCard.mkCard
             (Some (BirthdayCard.mkGroup (mkVector3 0 0 0)
                      (BirthdayCard.mkQuaternion 0 0 0 1))) false in
  BirthdayCard.positionOf
    (BirthdayCard.frames (fun q _ _ => q) camera props [0.016; 0.5; -1]
       (BirthdayCard.placeEffect props c))
  = Some (mkVector3 1 0.9 0).
Proof.
  intros props camera c.
  apply (resting_card_stays_put (fun q _ _ => q) camera props [0.016; 0.5; -1] c
           (BirthdayCard.mkGroup (mkVector3 0 0 0) (BirthdayCard.mkQuaternion 0 0 0 1)));
    reflexivity.
Defined.

(** X19. Hovering a resting card lifts it straight up: after any run of
    frames with non-negative deltas it has not moved sideways and is not
    below the table position. *)
Theorem hovered_card_rises_straight_up slerp camera props (deltas : list R) c g :
  BirthdayCard.isActive props = false -> BirthdayCard.isHovered c = true ->
  BirthdayCard.group c = Some g -> Forall (fun d => 0 <= d) deltas ->
  exists p',
    BirthdayCard.positionOf
      (BirthdayCard.frames slerp camera props deltas (BirthdayCard.placeEffect props c))
    = Some p'
    /\ x p' = x (BirthdayCard.defaultPosition props)
    /\ z p' = z (BirthdayCard.defaultPosition props)
    /\ y (BirthdayCard.defaultPosition props) <= y p'.
Proof.
  intros Hact Hhov Hg Hds.
  assert (H0 : exists p0,
             BirthdayCard.positionOf (BirthdayCard.placeEffect props c) = Some p0
             /\ BirthdayCard.isHovered (BirthdayCard.placeEffect props c) = true
             /\ x p0 = x (BirthdayCard.defaultPosition props)
             /\ z p0 = z (BirthdayCard.defaultPosition props)
             /\ y (BirthdayCard.defaultPosition props) <= y p0
                <= y (BirthdayCard.defaultPosition props) + BirthdayCard.HOVER_LIFT).
  { exists (BirthdayCard.defaultPosition props).
    unfold BirthdayCard.placeEffect, BirthdayCard.positionOf. rewrite Hg.
    unfold BirthdayCard.HOVER_LIFT. repeat split; trivial; lra. }
  generalize dependent (BirthdayCard.placeEffect props c). clear c g Hhov Hg.
  induction Hds as [| d deltas Hd _ IH]; intros c (p0 & Hp & Hh & Hx & Hz & Hy).
  - exists p0. repeat split; trivial; lra.
  - unfold BirthdayCard.frames. cbn [fold_left]. apply IH.
    unfold BirthdayCard.positionOf in Hp.
    destruct (BirthdayCard.group c) as [g |] eqn:Hg; [| discriminate].
    injection Hp as Hp.
    destruct (card_frame_attached slerp camera props d c g Hg) as [-> ->].
    eexists. split; [reflexivity |]. split; [exact Hh |].
    unfold BirthdayCard.positionTarget. rewrite Hact, Hh, Hp.
    unfold BirthdayCard.lerpTo. cbn [x y z].
    pose proof (card_alpha_range d Hd) as Halpha.
    unfold BirthdayCard.HOVER_LIFT in *.
    split; [rewrite Hx; ring |]. split; [rewrite Hz; ring |]. nra.
Qed.

Lemma hovered_card_rises_straight_up_witness :
  let props := BirthdayCard.mkProps (mkVector3 1 0.9 0)
                 (BirthdayCard.mkQuaternion 0 0 0 1) false in
  let camera := BirthdayCard.mkCamera (mkVector3 0 1 3) (mkVector3 0 0 (-1))
                  (BirthdayCard.mkQuaternion 0 0 0 1) in
  let c := BirthdayCard.mkCard
             (Some (BirthdayCard.mkGroup (mkVector3 0 0 0)
                      (BirthdayCard.mkQuaternion 0 0 0 1))) true in
  exists p',
    BirthdayCard.positionOf
      (BirthdayCard.frames (fun q _ _ => q) camera props [0.016; 0.5]
         (BirthdayCard.placeEffect props c))
    = Some p'
    /\ x p' = 1 /\ z p' = 0 /\ 0.9 <= y p'.
Proof.
  intros props camera c.
  apply (hovered_card_rises_straight_up (fun q _ _ => q) camera props
           [0.016; 0.5] c
           (BirthdayCard.mkGroup (mkVector3 0 0 0) (BirthdayCard.mkQuaternion 0 0 0 1))).
  - reflexivity.
  - reflexivity.
  - reflexivity.
  - repeat constructor; lra.
Defined.

(** ** Candle: flame strength and light *)

Lemma damp_fixed_point (v lambda dt : R) : damp v v lambda dt = v.
Proof. unfold damp, lerp. ring. Qed.

Lemma targetStrength_range isLit : 0 <= Candle.targetStrength isLit <= 1.
Proof. destruct isLit; unfold Candle.targetStrength; lra. Qed.

Lemma damp_unit_range (v target dt : R) :
  0 <= dt -> 0 <= v <= 1 -> 0 <= target <= 1 -> 0 <= damp v target 4 dt <= 1.
Proof.
  intros Hd Hv Ht. pose proof (damp_between v target 4 dt ltac:(lra) Hd) as H.
  revert H. unfold Rmin, Rmax. destruct (Rle_dec v target); lra.
Qed.

Lemma candle_step_unit_range e c :
  Candle.forward e ->
  0 <= Candle.strength c <= 1 /\ 0 <= Candle.lightStrength c <= 1 ->
  0 <= Candle.strength (Candle.step e c) <= 1
  /\ 0 <= Candle.lightStrength (Candle.step e c) <= 1.
Proof.
  intros He [Hs Hl]. destruct e as [isLit | isLit elapsed delta]; cbn [Candle.step].
  - unfold Candle.litEffect. cbn [Candle.strength Candle.lightStrength].
    split; apply targetStrength_range.
  - cbn [Candle.forward] in He. unfold Candle.frame.
    pose proof (targetStrength_range isLit) as Ht.
    destruct (Candle.light c); cbn [Candle.strength Candle.lightStrength];
      split; try apply damp_unit_range; assumption.
Qed.

Lemma candle_run_snoc events e c :
  Candle.run (events ++ [e]) c = Candle.step e (Candle.run events c).
Proof. unfold Candle.run. rewrite fold_left_app. reflexivity. Qed.

(** X20. The flame strength and the light strength of a candle stay in
    [[0, 1]] through every run of [isLit] effects and frames with
    non-negative deltas, whatever [isLit] is at each of them. *)
Theorem candle_strengths_stay_in_unit_range (events : list Candle.Event) c :
  Forall Candle.forward events ->
  0 <= Candle.strength c <= 1 -> 0 <= Candle.lightStrength c <= 1 ->
  0 <= Candle.strength (Candle.run events c) <= 1
  /\ 0 <= Candle.lightStrength (Candle.run events c) <= 1.
Proof.
  intros Hf Hs Hl. revert c Hs Hl.
  induction Hf as [| e events He _ IH]; intros c Hs Hl.
  - split; assumption.
  - unfold Candle.run. cbn [fold_left].
    destruct (candle_step_unit_range e c He (conj Hs Hl)) as [Hs' Hl'].
    apply IH; assumption.
Qed.

Lemma candle_strengths_stay_in_unit_range_witness :
  let c := Candle.run [Candle.Frame true 0.1 0.016; Candle.LitEffect false;
                       Candle.Frame false 0.2 0.016; Candle.Frame true 0.3 0.5]
             (Candle.initial true) in
  0 <= Candle.strength c <= 1 /\ 0 <= Candle.lightStrength c <= 1.
Proof.
  apply (candle_strengths_stay_in_unit_range
           [Candle.Frame true 0.1 0.016; Candle.LitEffect false;
            Candle.Frame false 0.2 0.016; Candle.Frame true 0.3 0.5]
           (Candle.initial true)).
  - repeat constructor; cbn [Candle.forward]; lra.
  - cbn [Candle.strength Candle.initial]. lra.
  - cbn [Candle.lightStrength Candle.initial Candle.targetStrength]. lra.
Defined.

(** X21. A frame with a non-negative delta on a candle whose strengths are in
    [[0, 1]] leaves the light with an intensity in [[0, 1.075]] and a
    position within 0.05 of the axis and 0.1 of height 3.5. *)
Theorem candle_light_is_bounded isLit elapsed delta c l :
  0 <= delta ->
  0 <= Candle.strength c <= 1 -> 0 <= Candle.lightStrength c <= 1 ->
  Candle.light c = Some l ->
  exists l',
    Candle.light (Candle.frame isLit elapsed delta c) = Some l'
    /\ 0 <= Candle.intensity l' <= 1.075
    /\ -0.05 <= x (Candle.lightPosition l') <= 0.05
    /\ 3.4 <= y (Candle.lightPosition l') <= 3.6
    /\ -0.05 <= z (Candle.lightPosition l') <= 0.05.
Proof.
  intros Hd Hs Hl Hlight. unfold Candle.frame. rewrite Hlight.
  eexists. split; [reflexivity |].
  cbn [Candle.intensity Candle.lightPosition x y z].
  pose proof (targetStrength_range isLit) as Ht.
  pose proof (damp_unit_range _ _ delta Hd Hs Ht) as Hs'.
  pose proof (damp_unit_range _ _ delta Hd Hl Ht) as Hl'.
  pose proof (SIN_bound (elapsed * 10.0)) as B1.
  pose proof (SIN_bound (elapsed * 15.3)) as B2.
  pose proof (SIN_bound (elapsed * 8.7)) as B3.
  pose proof (SIN_bound (elapsed * 3.0)) as B4.
  pose proof (SIN_bound (elapsed * 5.0)) as B5.
  pose proof (COS_bound (elapsed * 2.7)) as B6.
  set (s' := damp (Candle.strength c) (Candle.targetStrength isLit) 4 delta) in *.
  set (l' := damp (Candle.lightStrength c) (Candle.targetStrength isLit) 4 delta) in *.
  clearbody s' l'.
  generalize dependent (sin (elapsed * 10.0)). generalize dependent (sin (elapsed * 15.3)).
  generalize dependent (sin (elapsed * 8.7)). intros s3 B3 s2 B2 s1 B1.
  split; [| lra].
  unfold Rmax. destruct (Rle_dec _ _); split; try lra; nra.
Qed.

Lemma candle_light_is_bounded_witness :
  exists l',
    Candle.light (Candle.frame true 2 0.016 (Candle.initial true)) = Some l'
    /\ 0 <= Candle.intensity l' <= 1.075
    /\ -0.05 <= x (Candle.lightPosition l') <= 0.05
    /\ 3.4 <= y (Candle.lightPosition l') <= 3.6
    /\ -0.05 <= z (Candle.lightPosition l') <= 0.05.
Proof.
  apply (candle_light_is_bounded true 2 0.016 (Candle.initial true)
           (Candle.mkLight 1 (mkVector3 0 0 0) true)).
  - lra.
  - cbn [Candle.strength Candle.initial]. lra.
  - cbn [Candle.lightStrength Candle.initial Candle.targetStrength]. lra.
  - reflexivity.
Defined.

Lemma candle_frame_on_target isLit elapsed delta c l :
  Candle.strength c = Candle.targetStrength isLit ->
  Candle.lightStrength c = Candle.targetStrength isLit ->
  Candle.light c = Some l ->
  let c' := Candle.frame isLit elapsed delta c in
  Candle.strength c' = Candle.targetStrength isLit
  /\ Candle.lightStrength c' = Candle.targetStrength isLit
  /\ (exists l', Candle.light c' = Some l' /\ Candle.visible l' = isLit
                 /\ (isLit = false -> Candle.intensity l' = 0)
                 /\ (isLit = true -> 0.925 <= Candle.intensity l' <= 1.075))
  /\ (forall v, Candle.flameVisible c' = Some v -> v = isLit).
Proof.
  intros Hs Hl Hlight. cbv zeta. unfold Candle.frame.
  rewrite Hs, Hl, Hlight, !damp_fixed_point.
  assert (Hv : bool_decide (Candle.targetStrength isLit > 0.02) = isLit).
  { destruct isLit; unfold Candle.targetStrength.
    - apply bool_decide_eq_true_2. lra.
    - apply bool_decide_eq_false_2. lra. }
  cbn [Candle.strength Candle.lightStrength Candle.light Candle.flameVisible].
  split; [reflexivity |]. split; [reflexivity |]. split.
  - eexists. split; [reflexivity |]. cbn [Candle.visible Candle.intensity].
    split; [exact Hv |].
    pose proof (SIN_bound (elapsed * 10.0)) as B1.
    pose proof (SIN_bound (elapsed * 15.3)) as B2.
    pose proof (SIN_bound (elapsed * 8.7)) as B3.
    split; intros ->; unfold Candle.targetStrength, Rmax;
      destruct (Rle_dec _ _); lra.
  - destruct (Candle.flameVisible c); intros v Hv'; [| discriminate].
    injection Hv' as <-. exact Hv.
Qed.

Lemma candle_run_on_target isLit (events : list Candle.Event) :
  Forall (Candle.frameWhile isLit) events ->
  forall c l,
  Candle.strength c = Candle.targetStrength isLit ->
  Candle.lightStrength c = Candle.targetStrength isLit ->
  Candle.light c = Some l ->
  Candle.strength (Candle.run events c) = Candle.targetStrength isLit
  /\ Candle.lightStrength (Candle.run events c) = Candle.targetStrength isLit
  /\ exists l', Candle.light (Candle.run events c) = Some l'.
Proof.
  induction 1 as [| e events He _ IH]; intros c l Hs Hl Hlight.
  - split; [exact Hs |]. split; [exact Hl |]. exists l. exact Hlight.
  - unfold Candle.run. cbn [fold_left].
    destruct e as [b | b elapsed delta]; cbn [Candle.frameWhile] in He; [contradiction |].
    subst b. cbn [Candle.step].
    destruct (candle_frame_on_target isLit elapsed delta c l Hs Hl Hlight)
      as (Hs' & Hl' & (l' & Hlight' & _) & _).
    apply (IH _ l'); assumption.
Qed.

(** X22. Once the [isLit] effect has run, the damping of lines 256-272 has
    nothing left to do: through every later frame rendered with that
    [isLit], whatever its delta, the flame strength and the light strength
    sit exactly on [isLit ? 1 : 0]; from the first such frame on, the light
    and the flame mesh are visible exactly when the candle is lit, the
    light is at intensity 0 when it is not and within 0.075 of 1 when it
    is. *)
Theorem candle_rests_on_its_target isLit (events : list Candle.Event) c l :
  Forall (Candle.frameWhile isLit) events -> Candle.light c = Some l ->
  let c' := Candle.run events (Candle.litEffect isLit c) in
  Candle.strength c' = Candle.targetStrength isLit
  /\ Candle.lightStrength c' = Candle.targetStrength isLit
  /\ (events <> [] ->
      (exists l', Candle.light c' = Some l' /\ Candle.visible l' = isLit
                  /\ (isLit = false -> Candle.intensity l' = 0)
                  /\ (isLit = true -> 0.925 <= Candle.intensity l' <= 1.075))
      /\ (forall v, Candle.flameVisible c' = Some v -> v = isLit)).
Proof.
  intros Hf Hlight c'.
  destruct (candle_run_on_target isLit events Hf (Candle.litEffect isLit c) l
              eq_refl eq_refl Hlight) as (Hs & Hl & _).
  split; [exact Hs |]. split; [exact Hl |]. intros Hne.
  destruct events as [| e0 events0] using rev_ind; [contradiction |].
  clear IHevents0 Hne Hs Hl. subst c'. rewrite candle_run_snoc.
  apply Forall_app in Hf. destruct Hf as [Hf He].
  inversion He as [| e1 es1 He1 _]; subst.
  destruct e0 as [b | b elapsed delta]; cbn [Candle.frameWhile] in He1; [contradiction |].
  subst b. cbn [Candle.step].
  destruct (candle_run_on_target isLit events0 Hf (Candle.litEffect isLit c) l
              eq_refl eq_refl Hlight) as (Hs & Hl & (l1 & Hl1)).
  destruct (candle_frame_on_target isLit elapsed delta _ l1 Hs Hl Hl1)
    as (_ & _ & Hvis & Hflame).
  split; [exact Hvis | exact Hflame].
Qed.

Lemma candle_rests_on_its_target_witness :
  let c' := Candle.run [Candle.Frame false 0.1 0.016; Candle.Frame false 0.2 (-3)]
              (Candle.litEffect false (Candle.initial true)) in
  Candle.strength c' = 0 /\ Candle.lightStrength c' = 0
  /\ exists l', Candle.light c' = Some l' /\ Candle.visible l' = false
                /\ Candle.intensity l' = 0.
Proof.
  destruct (candle_rests_on_its_target false
              [Candle.Frame false 0.1 0.016; Candle.Frame false 0.2 (-3)]
              (Candle.initial true) (Candle.mkLight 1 (mkVector3 0 0 0) true))
    as (Hs & Hl & Hrest).
  - repeat constructor.
  - reflexivity.
  - destruct Hrest as [(l' & Hl' & Hv & Hoff & _) _]; [discriminate |].
    cbv zeta. split; [exact Hs |]. split; [exact Hl |].
    exists l'. split; [exact Hl' |]. split; [exact Hv |]. apply Hoff. reflexivity.
Defined.

End Fireworks.
